(** * tasktiger: the worker protocol over the broker

    A shallow embedding of [tasktiger.py].  The broker (Redis) is an explicit
    state record; every command of the client [conn] is a function on that
    state.  A pipeline is the composition of its commands in the order they
    were queued.  Readings of [time.time()] are inputs of the functions that
    take them, as integers (ticks of the clock, in seconds).  What the
    interpreter's libraries compute (json, hashlib, importlib, the task body
    itself) is an input as well. *)

From stdpp Require Import gmap strings list fin_maps sorting pretty.

Local Open Scope Z_scope.

(** ** Python values and exceptions *)

(** The values that travel through the task record: what [json] can encode. *)
#[warnings="-register-all"]
Inductive pyval : Type :=
  | PNone
  | PBool (b : bool)
  | PNum (z : Z)
  | PStr (s : string)
  | PList (l : list pyval)
  | PDict (d : list (string * pyval)).

(** Python's truth value testing ([if x:], [x or y], [not x]). *)
Definition truthy (v : pyval) : bool :=
  match v with
  | PNone => false
  | PBool b => b
  | PNum z => negb (z =? 0)
  | PStr s => negb (String.eqb s EmptyString)
  | PList l => match l with [] => false | _ => true end
  | PDict d => match d with [] => false | _ => true end
  end.

(** [a or b] *)
Definition py_or (a b : pyval) : pyval := if truthy a then a else b.

(** A dict with string keys, as the list of its items. *)
Abbreviation pydict := (list (string * pyval)).

Fixpoint dict_get (k : string) (d : pydict) : option pyval :=
  match d with
  | [] => None
  | (k', v) :: d' => if String.eqb k k' then Some v else dict_get k d'
  end.

(** [d[k] = v]: replaces the value of an existing key, else adds the item. *)
Fixpoint dict_set (k : string) (v : pyval) (d : pydict) : pydict :=
  match d with
  | [] => [(k, v)]
  | (k', v') :: d' =>
      if String.eqb k k' then (k, v) :: d' else (k', v') :: dict_set k v d'
  end.

(** [d.get(k, default)] *)
Definition dict_get_default (k : string) (dflt : pyval) (d : pydict) : pyval :=
  match dict_get k d with Some v => v | None => dflt end.

Inductive exn : Type :=
  | ValueError
  | ImportError
  | AttributeError
  | KeyError
  | TypeError
  | AssertionError
  | OSError (errno : Z)
  | OtherException (name : string).

(** A computation that returns or raises. *)
Abbreviation res A := (exn + A)%type.

#[global] Instance res_ret : MRet (sum exn) := fun A a => inr a.
#[global] Instance res_bind : MBind (sum exn) := fun A B k m =>
  match m with
  | inl e => inl e
  | inr a => k a
  end.

Definition raise {A} (e : exn) : res A := inl e.

(** ** The broker *)

(** The five kinds of broker data the program touches.  An absent key and an
    empty set, sorted set or list are the same thing, as in Redis; the
    accessors below return the empty collection for an absent key.  In the
    key layout of the program the keys of two kinds never coincide, so each
    kind has a map of its own, and [delete], which the program applies to
    the keys of task records only, acts on the strings. *)
Record broker : Type := Broker {
  sets : gmap string (gset string);
  zsets : gmap string (gmap string Z);
  strings : gmap string string;
  lists : gmap string (list string);
  published : list (string * string);
}.

Definition empty_broker : broker := Broker ∅ ∅ ∅ ∅ [].

Module conn.

Definition smembers (k : string) (b : broker) : gset string :=
  default ∅ (sets b !! k).

Definition sadd (k m : string) (b : broker) : broker :=
  Broker (<[k := {[m]} ∪ smembers k b]> (sets b))
         (zsets b) (strings b) (lists b) (published b).

Definition srem (k m : string) (b : broker) : broker :=
  Broker (<[k := smembers k b ∖ {[m]}]> (sets b))
         (zsets b) (strings b) (lists b) (published b).

(** The sorted set at [k]: member to score. *)
Definition zset (k : string) (b : broker) : gmap string Z :=
  default ∅ (zsets b !! k).

Definition zscore (k m : string) (b : broker) : option Z := zset k b !! m.

Definition zcard (k : string) (b : broker) : nat := size (zset k b).

Definition zadd (k m : string) (score : Z) (b : broker) : broker :=
  Broker (sets b) (<[k := <[m := score]> (zset k b)]> (zsets b))
         (strings b) (lists b) (published b).

Definition zrem (k m : string) (b : broker) : broker :=
  Broker (sets b) (<[k := base.delete m (zset k b)]> (zsets b))
         (strings b) (lists b) (published b).

Definition get (k : string) (b : broker) : option string := strings b !! k.

Definition set (k v : string) (b : broker) : broker :=
  Broker (sets b) (zsets b) (<[k := v]> (strings b)) (lists b) (published b).

Definition lrange (k : string) (b : broker) : list string :=
  default [] (lists b !! k).

Definition rpush (k v : string) (b : broker) : broker :=
  Broker (sets b) (zsets b) (strings b)
         (<[k := lrange k b ++ [v]]> (lists b)) (published b).

Definition lpush (k v : string) (b : broker) : broker :=
  Broker (sets b) (zsets b) (strings b)
         (<[k := v :: lrange k b]> (lists b)) (published b).

Definition publish (channel message : string) (b : broker) : broker :=
  Broker (sets b) (zsets b) (strings b) (lists b)
         (published b ++ [(channel, message)]).

Definition delete (k : string) (b : broker) : broker :=
  Broker (sets b) (zsets b) (base.delete k (strings b)) (lists b)
         (published b).

End conn.

(** ** Constants and keys *)

Definition DEFAULT_QUEUE : string := "default".
Definition DEFAULT_HARD_TIMEOUT : Z := 300.
Definition ACTIVE_TASK_UPDATE_TIMER : Z := 10.
Definition ACTIVE_TASK_UPDATE_TIMEOUT : Z := 60.
Definition ACTIVE_TASK_EXPIRED_BATCH_SIZE : nat := 10.
Definition REDIS_PREFIX : string := "t".

(** [sep.join(parts)] *)
Fixpoint join (sep : string) (parts : list string) : string :=
  match parts with
  | [] => EmptyString
  | p :: ps =>
      match ps with
      | [] => p
      | _ => p +:+ sep +:+ join sep ps
      end
  end.

Definition _key (parts : list string) : string :=
  join ":" (REDIS_PREFIX :: parts).

(** [name.rsplit('.', 1)], [None] when the name has no dot (the unpacking
    into two names then raises [ValueError]). *)
Fixpoint rsplit_dot (name : string) : option (string * string) :=
  match name with
  | EmptyString => None
  | String c rest =>
      match rsplit_dot rest with
      | Some (m, a) => Some (String c m, a)
      | None =>
          if Ascii.eqb c (Ascii.ascii_of_nat 46)
          then Some (EmptyString, rest)
          else None
      end
  end.

Definition hex_digit (n : N) : Ascii.ascii :=
  if (n <? 10)%N
  then Ascii.ascii_of_N (48 + n)
  else Ascii.ascii_of_N (87 + n).

(** [s.encode('hex')] *)
Fixpoint hex_encode (s : string) : string :=
  match s with
  | EmptyString => EmptyString
  | String c rest =>
      let n := Ascii.N_of_ascii c in
      String (hex_digit (n / 16)%N) (String (hex_digit (n mod 16)%N)
        (hex_encode rest))
  end.

(** [f.read(n)] on a stream whose content is [stream]. *)
Definition read (n : nat) (stream : string) : string :=
  String.substring 0 n stream.

(** ** Function objects and the interpreter's libraries *)

(** A function object: where it is defined and the attributes the [task]
    decorator may have set on it ([None]: the attribute is absent). *)
Record pyfunc : Type := PyFunc {
  __module__ : string;
  __name__ : string;
  _task_hard_timeout : option pyval;
  _task_queue : option string;
  _task_unique : option pyval;
}.

(** [getattr(func, name, default)] for the three attributes. *)
Definition getattr_default (attr : option pyval) (dflt : pyval) : pyval :=
  match attr with Some v => v | None => dflt end.

(** [json.dumps(v, sort_keys=...)], [json.loads] and
    [hashlib.sha256(s).hexdigest()]: library functions, not code of the
    program; the development is parametric in them. *)
Class PyLib : Type := {
  json_dumps : bool -> pyval -> string;
  json_loads : string -> res pyval;
  sha256_hexdigest : string -> string;
}.

(** [task(queue, hard_timeout, unique)(func)] *)
Definition task (queue : option string) (hard_timeout : pyval) (unique : pyval)
    (func : pyfunc) : pyfunc :=
  let func :=
    if truthy hard_timeout
    then PyFunc (__module__ func) (__name__ func) (Some hard_timeout)
                (_task_queue func) (_task_unique func)
    else func in
  let func :=
    match queue with
    | Some q =>
        if negb (String.eqb q EmptyString)
        then PyFunc (__module__ func) (__name__ func) (_task_hard_timeout func)
                    (Some q) (_task_unique func)
        else func
    | None => func
    end in
  if truthy unique
  then PyFunc (__module__ func) (__name__ func) (_task_hard_timeout func)
              (_task_queue func) (Some (PBool true))
  else func.

(** ** The atomic scripts *)

Inductive on_success_action : Type :=
  | update_sets (src_set dst_set queue : string).

Module scripts.

(** The order of a sorted set: by score, members of equal score by name. *)
Definition zorder (p q : string * Z) : Prop :=
  p.2 < q.2 ∨ (p.2 = q.2 ∧ String.leb p.1 q.1 = true).

#[global] Instance zorder_dec p q : Decision (zorder p q).
Proof. unfold zorder. apply _. Defined.

(** A score within the bound; no bound when [max_score] is null. *)
Definition score_le (max_score : option Z) (p : string * Z) : Prop :=
  match max_score with
  | None => True
  | Some m => p.2 ≤ m
  end.

#[global] Instance score_le_dec max_score p :
  Decision (score_le max_score p).
Proof. destruct max_score; simpl; apply _. Defined.

(** The members of the sorted set at [k] whose score is at most
    [max_score], in the order of the sorted set. *)
Definition zrangebyscore (k : string) (max_score : option Z) (b : broker)
    : list string :=
  (filter (score_le max_score)
     (merge_sort zorder (map_to_list (conn.zset k b)))).*1.

Definition move (src dst : string) (new_score : Z) (b : broker)
    (id : string) : broker :=
  conn.zadd dst id new_score (conn.zrem src id b).

(** Modelled from the spec: [RedisScripts.zpoppush] of the module
    [redis_scripts], which is not among the sources.  Section 4.2:
    removes up to [count] members from sorted set [src] whose score is at
    most [max_score] (unbounded when [max_score] is null), inserts them
    into [dst] with score [new_score], and returns the list of moved IDs.
    If [on_success = (update_sets, src_set, dst_set, queue)] is supplied
    and at least one ID was moved: add [queue] to [dst_set], and remove
    [queue] from [src_set] iff [src] is now empty.  Members leave in the
    order of the sorted set (section 5: claim order is by ascending
    timestamp). *)
Definition zpoppush (src dst : string) (count : nat) (max_score : option Z)
    (new_score : Z) (on_success : option on_success_action) (b : broker)
    : list string * broker :=
  let ids := take count (zrangebyscore src max_score b) in
  let b := foldl (move src dst new_score) b ids in
  let b :=
    match on_success, ids with
    | Some (update_sets src_set dst_set queue), _ :: _ =>
        let b := conn.sadd dst_set queue b in
        if decide (conn.zcard src b = 0%nat)
        then conn.srem src_set queue b
        else b
    | _, _ => b
    end in
  (ids, b).

(** Modelled from the spec: [RedisScripts.srem_if_not_exists].  Section
    4.2: remove [queue] from [queue_status_set] iff the sorted set at
    [bucket_key] has zero cardinality. *)
Definition srem_if_not_exists (queue_status_set queue bucket_key : string)
    (b : broker) : broker :=
  if decide (conn.zcard bucket_key b = 0%nat)
  then conn.srem queue_status_set queue b
  else b.

(** Modelled from the spec: [RedisScripts.delete_if_not_in_zsets].
    Section 4.2: delete [record_key] iff [id] is not a member of any of
    the listed sorted sets. *)
Definition delete_if_not_in_zsets (record_key id : string)
    (zset_keys : list string) (b : broker) : broker :=
  if existsb (fun k => bool_decide (is_Some (conn.zscore k id b))) zset_keys
  then b
  else conn.delete record_key b.

End scripts.

(** ** The program *)

(** [x[k]] *)
Definition py_getitem (x : pyval) (k : string) : res pyval :=
  match x with
  | PDict d =>
      match dict_get k d with
      | Some v => mret v
      | None => raise KeyError
      end
  | _ => raise TypeError
  end.

(** [x.get(k, default)] *)
Definition py_get (x : pyval) (k : string) (dflt : pyval) : res pyval :=
  match x with
  | PDict d => mret (dict_get_default k dflt d)
  | _ => raise AttributeError
  end.

(** A value used as a part of a key: [':'.join] accepts strings only. *)
Definition key_part (x : pyval) : res string :=
  match x with
  | PStr s => mret s
  | _ => raise TypeError
  end.

(** What a worker process finds when it runs a task: the modules it can
    import, what calling the task body with its arguments under a deadline
    does (the [with UnixSignalDeathPenalty(hard_timeout)] block around the
    call; a deadline that fires is an exception raised in the body), the text
    [traceback.format_exc()] gives for an exception, and the two clock
    readings of [_execute_forked].  The body is user code that reaches the
    broker like any other client: [call] takes the broker as the body finds
    it and gives, with the way the body ends, the broker as the body leaves
    it. *)
Inductive call_outcome : Type :=
  | Returned
  | Raised (traceback : string).

Record child_env : Type := ChildEnv {
  import_module : string -> res (string -> option pyfunc);
  call : pyfunc -> pyval -> pyval -> pyval -> broker ->
         call_outcome * broker;
  format_exc : exn -> string;
  time_started : Z;
  time_failed : Z;
}.

Definition import_attribute (env : child_env) (name : string) : res pyfunc :=
  match rsplit_dot name with
  | None => raise ValueError
  | Some (module_name, attribute) =>
      module ← import_module env module_name;
      match module attribute with
      | Some f => mret f
      | None => raise AttributeError
      end
  end.

(** [urandom]: the content of [/dev/urandom] at the time of the call. *)
Definition _gen_id (urandom : string) : string :=
  hex_encode (read 32 urandom).

Definition _serialize_func_name (func : pyfunc) : res string :=
  if String.eqb (__module__ func) "__main__"
  then raise ValueError
  else mret (join "." [__module__ func; __name__ func]).

(** A name that is not a string has no [rsplit]. *)
Definition _func_from_serialized_name (env : child_env)
    (serialized_name : pyval) : res pyfunc :=
  match serialized_name with
  | PStr name => import_attribute env name
  | _ => raise AttributeError
  end.

(** What interrupts the parent's [os.waitpid] before it returns.
    Modelled from the spec: [UnixSignalDeathPenalty] and
    [JobTimeoutException] of the module [timeouts], which is not among the
    sources.  Section 4.4: the wait is interruptible on a short periodic
    timer, and on each such interruption a heartbeat is written.  A
    [WaitTimer] is one expiry of that timer, with the clock reading of the
    heartbeat; a [WaitOSError] is an [OSError] raised by [waitpid]. *)
Inductive wait_event : Type :=
  | WaitTimer (now : Z)
  | WaitOSError (errno : Z).

Definition EINTR : Z := 4.

(** How the forked child ends: it runs [_execute_forked] in its environment
    and exits, or a signal terminates it before it has written anything. *)
Inductive child_fate : Type :=
  | ChildRuns (env : child_env)
  | ChildKilled (signum : Z) (core : bool).

(** How a process ends, and the status [os.waitpid] reports for it: the
    exit code in the high byte, else the terminating signal in the low seven
    bits with bit 7 set for a core dump. *)
Inductive termination : Type :=
  | Exited (code : Z)
  | Signaled (signum : Z) (core : bool).

Definition wait_status (t : termination) : Z :=
  match t with
  | Exited code => Z.shiftl (Z.land code 255) 8
  | Signaled signum core =>
      Z.lor (Z.land signum 127) (if core then 128 else 0)
  end.

(** Exit codes are bytes and signal numbers are 1 to 127. *)
Definition valid_termination (t : termination) : Prop :=
  match t with
  | Exited code => 0 <= code <= 255
  | Signaled signum _ => 1 <= signum <= 127
  end.

(** What one call of [_process_from_queue] meets. *)
Record run : Type := Run {
  now_claim : Z;
  fate : child_fate;
  waits : list wait_event;
  now_failed : Z;
}.

Section program.
Context `{lib : PyLib}.

Definition _gen_unique_id (serialized_name : string) (args kwargs : pyval)
    : string :=
  sha256_hexdigest (json_dumps true (PDict [
    ("func", PStr serialized_name);
    ("args", args);
    ("kwargs", kwargs)
  ])).

(** The pieces of [delay]: the [unique] flag in force, the task ID, the
    queue and the task record. *)
Definition unique_of (func : pyfunc) (unique : pyval) : pyval :=
  match unique with
  | PNone => getattr_default (_task_unique func) (PBool false)
  | _ => unique
  end.

Definition task_id_of (serialized_name : string) (args kwargs : pyval)
    (unique : pyval) (urandom : string) : string :=
  if truthy unique
  then _gen_unique_id serialized_name args kwargs
  else _gen_id urandom.

Definition queue_of (func : pyfunc) (queue : option string) : string :=
  match queue with
  | None => default DEFAULT_QUEUE (_task_queue func)
  | Some q => q
  end.

Definition task_record (task_id serialized_name : string) (now : Z)
    (unique args kwargs hard_timeout : pyval) : pydict :=
  let task := [
    ("id", PStr task_id);
    ("func", PStr serialized_name);
    ("time_last_queued", PNum now)
  ] in
  let task := if truthy unique then dict_set "unique" (PBool true) task
              else task in
  let task := if truthy args then dict_set "args" args task else task in
  let task := if truthy kwargs then dict_set "kwargs" kwargs task
              else task in
  let task := if truthy hard_timeout
              then dict_set "hard_timeout" hard_timeout task else task in
  task.

Definition delay (func : pyfunc) (args kwargs : pyval)
    (queue : option string) (hard_timeout unique : pyval)
    (urandom : string) (now : Z) (b : broker) : res broker :=
  serialized_name ← _serialize_func_name func;
  let unique := unique_of func unique in
  let task_id := task_id_of serialized_name args kwargs unique urandom in
  let queue := queue_of func queue in
  let task :=
    task_record task_id serialized_name now unique args kwargs
      hard_timeout in
  let serialized_task := json_dumps false (PDict task) in
  let b := conn.sadd (_key ["queued"]) queue b in
  let b := conn.set (_key ["task"; task_id]) serialized_task b in
  let b := conn.zadd (_key ["queued"; queue]) task_id now b in
  let b := conn.publish (_key ["activity"]) queue b in
  mret b.

(** The deadline handed to [UnixSignalDeathPenalty]. *)
Definition hard_timeout_of (task : pyval) (func : pyfunc) : res pyval :=
  t ← py_get task "hard_timeout" PNone;
  mret (py_or t (py_or (getattr_default (_task_hard_timeout func) PNone)
                       (PNum DEFAULT_HARD_TIMEOUT))).

Definition import_caught (e : exn) : bool :=
  match e with
  | ValueError | ImportError | AttributeError => true
  | _ => false
  end.

(** The result comes with the broker as the child leaves it, also when an
    exception leaves the function: what the body wrote stays written. *)
Definition _execute_forked (env : child_env) (task : pyval) (b : broker)
    : res bool * broker :=
  let execution : pydict := [] in
  let '(outcome, b) :=
    match (name ← py_getitem task "func";
           _func_from_serialized_name env name) with
    | inl e =>
        (if import_caught e then mret (false, execution) else raise e, b)
    | inr func =>
        match (args ← py_get task "args" (PList []);
               kwargs ← py_get task "kwargs" (PDict []);
               mret (args, kwargs)) with
        | inl e => (raise e, b)
        | inr (args, kwargs) =>
            let execution :=
              dict_set "time_started" (PNum (time_started env)) execution in
            match hard_timeout_of task func with
            | inr hard_timeout =>
                match call env func args kwargs hard_timeout b with
                | (Returned, b) => (mret (true, execution), b)
                | (Raised traceback, b) =>
                    let execution :=
                      dict_set "traceback" (PStr traceback) execution in
                    let execution :=
                      dict_set "time_failed" (PNum (time_failed env))
                        execution in
                    (mret (false, execution), b)
                end
            | inl e =>
                let execution :=
                  dict_set "traceback" (PStr (format_exc env e)) execution in
                let execution :=
                  dict_set "time_failed" (PNum (time_failed env))
                    execution in
                (mret (false, execution), b)
            end
        end
    end in
  match outcome with
  | inl e => (raise e, b)
  | inr (success, execution) =>
      if negb success then
        let execution := dict_set "success" (PBool success) execution in
        let serialized_execution := json_dumps false (PDict execution) in
        match (id ← py_getitem task "id"; key_part id) with
        | inl e => (raise e, b)
        | inr id =>
            (mret success,
             conn.rpush (_key ["task"; id; "executions"])
                        serialized_execution b)
        end
      else (mret success, b)
  end.

Definition _heartbeat (queue task_id : string) (now : Z) (b : broker)
    : broker :=
  conn.zadd (_key ["active"; queue]) task_id now b.

(** The parent's loop around [os.waitpid]: each timer expiry writes a
    heartbeat, an interrupted call is retried, another [OSError] is
    raised again; after the last event [waitpid] returns [return_code]. *)
Fixpoint wait_child (queue : string) (task : pyval)
    (events : list wait_event) (return_code : Z) (b : broker)
    : res (Z * broker) :=
  match events with
  | [] => mret (return_code, b)
  | WaitOSError errno :: events =>
      if errno =? EINTR
      then wait_child queue task events return_code b
      else raise (OSError errno)
  | WaitTimer now :: events =>
      id ← py_getitem task "id";
      id ← key_part id;
      wait_child queue task events return_code (_heartbeat queue id now b)
  end.

(** The child's side of the fork: how it ends and what it wrote.  It exits
    with [int(not success)]; an exception that leaves [_execute_forked]
    unwinds the child up to the entry point of the module, and the
    interpreter exits with 1.  The child's writes are applied before the
    parent's heartbeats.  [_execute_forked] itself writes to the list of
    executions only and a heartbeat sets one score of the active sorted
    set, so the order of the two matters only for a body that itself
    writes to that sorted set. *)
Definition run_child (child : child_fate) (task : pyval) (b : broker)
    : termination * broker :=
  match child with
  | ChildRuns env =>
      match _execute_forked env task b with
      | (inr success, b) => (Exited (if negb success then 1 else 0), b)
      | (inl _, b) => (Exited 1, b)
      end
  | ChildKilled signum core => (Signaled signum core, b)
  end.

(** The parent's branch of [_execute], for a child that ends with [t]. *)
Definition supervise (queue : string) (task : pyval)
    (events : list wait_event) (t : termination) (b : broker)
    : res (bool * broker) :=
  '(return_code, b) ← wait_child queue task events (wait_status t) b;
  let status := return_code =? 0 in
  mret (status, b).

Definition _execute (queue : string) (task : pyval) (child : child_fate)
    (events : list wait_event) (b : broker) : res (bool * broker) :=
  let '(t, b) := run_child child task b in
  supervise queue task events t b.

(** The pipeline of the [if success:] branch. *)
Definition reconcile_success (queue task_id : string) (unique : pyval)
    (b : broker) : broker :=
  let b := conn.zrem (_key ["active"; queue]) task_id b in
  let b :=
    if truthy unique
    then scripts.delete_if_not_in_zsets (_key ["task"; task_id]) task_id
           [_key ["queued"; queue]; _key ["error"; queue]] b
    else conn.delete (_key ["task"; task_id]) b in
  scripts.srem_if_not_exists (_key ["active"]) queue
    (_key ["active"; queue]) b.

(** The pipeline of the [else:] branch. *)
Definition reconcile_failure (queue task_id : string) (now : Z)
    (b : broker) : broker :=
  let b := conn.zrem (_key ["active"; queue]) task_id b in
  let b := conn.zadd (_key ["error"; queue]) task_id now b in
  scripts.srem_if_not_exists (_key ["active"]) queue
    (_key ["active"; queue]) b.

(** The claim: the [zpoppush] call of [_process_from_queue]. *)
Definition claim (queue : string) (now : Z) (b : broker)
    : list string * broker :=
  scripts.zpoppush (_key ["queued"; queue]) (_key ["active"; queue])
    1 None now
    (Some (update_sets (_key ["queued"]) (_key ["active"]) queue)) b.

Definition _process_from_queue (queue : string) (r : run) (b : broker)
    : res (option string * broker) :=
  let now := now_claim r in
  let '(task_ids, b) := claim queue now b in
  if negb (bool_decide (length task_ids < 2)%nat) then raise AssertionError
  else
    match task_ids with
    | [] => mret (None, b)
    | task_id :: _ =>
        let serialized_task := conn.get (_key ["task"; task_id]) b in
        match serialized_task with
        | None => mret (Some task_id, b)
        | Some serialized_task =>
            if String.eqb serialized_task EmptyString
            then mret (Some task_id, b)
            else
              task ← json_loads serialized_task;
              '(success, b) ← _execute queue task (fate r) (waits r) b;
              if success : bool then
                unique ← py_get task "unique" (PBool false);
                mret (Some task_id,
                      reconcile_success queue task_id unique b)
              else
                let now := now_failed r in
                mret (Some task_id,
                      reconcile_failure queue task_id now b)
        end
    end.

(** One round of the loop of [_worker_queue_expired_tasks]. *)
Definition requeue_expired (now : Z) (b : broker) (queue : string)
    : broker :=
  let '(result, b) :=
    scripts.zpoppush (_key ["active"; queue]) (_key ["queued"; queue])
      ACTIVE_TASK_EXPIRED_BATCH_SIZE
      (Some (now - ACTIVE_TASK_UPDATE_TIMEOUT)) now
      (Some (update_sets (_key ["active"]) (_key ["queued"]) queue)) b in
  match result with
  | [] => b
  | _ => conn.publish (_key ["activity"]) queue b
  end.

Definition _worker_queue_expired_tasks (now : Z) (b : broker) : broker :=
  let active_queues := conn.smembers (_key ["active"]) b in
  foldl (requeue_expired now) b (elements active_queues).

(** The loop of [_worker_run] over the shuffled queues.  Each visit comes
    with what the call meets and with the value of [_stop_requested] read
    after it. *)
Fixpoint visit_queues (visits : list (string * run * bool))
    (queue_set : gset string) (b : broker)
    : res (gset string * broker * bool) :=
  match visits with
  | [] => mret (queue_set, b, false)
  | (queue, r, stop_requested) :: visits =>
      '(result, b) ← _process_from_queue queue r b;
      let queue_set :=
        match result with
        | None => queue_set ∖ {[queue]}
        | Some _ => queue_set
        end in
      if stop_requested : bool then mret (queue_set, b, true)
      else visit_queues visits queue_set b
  end.

Definition _worker_run (visits : list (string * run * bool))
    (stop_requested : bool) (now : Z) (queue_set : gset string)
    (b : broker) : res (gset string * broker) :=
  '(queue_set, b, stopped) ← visit_queues visits queue_set b;
  let b :=
    if stopped || stop_requested then b
    else _worker_queue_expired_tasks now b in
  mret (queue_set, b).

End program.

(** ** Notions used by the statements *)

(** The three statuses and the sorted set of a status and a queue. *)
Inductive status : Type := Queued | Active | Error.

Definition status_name (s : status) : string :=
  match s with
  | Queued => "queued"
  | Active => "active"
  | Error => "error"
  end.

Definition bucket (s : status) (queue : string) : string :=
  _key [status_name s; queue].

(** [id] is a member of the sorted set at key [k]. *)
Definition member (id k : string) (b : broker) : Prop :=
  is_Some (conn.zscore k id b).

(** A task ID is in at most one [<status>:<queue>] sorted set. *)
Definition at_most_one_bucket (b : broker) : Prop :=
  ∀ id s1 q1 s2 q2,
    member id (bucket s1 q1) b → member id (bucket s2 q2) b →
    s1 = s2 ∧ q1 = q2.

(** The same over all keys of sorted sets. *)
Definition at_most_one_zset (b : broker) : Prop :=
  ∀ id k1 k2, member id k1 b → member id k2 b → k1 = k2.

(** The IDs a reclaim at time [now] takes from the active sorted set of a
    queue: the first of those whose score is at most [now] minus the
    timeout, up to the batch size. *)
Definition expired (now : Z) (b : broker) (queue : string) : list string :=
  take ACTIVE_TASK_EXPIRED_BATCH_SIZE
    (scripts.zrangebyscore (_key ["active"; queue])
       (Some (now - ACTIVE_TASK_UPDATE_TIMEOUT)) b).

(** The messages a reclaim at time [now] over [queues] publishes. *)
Definition announced (now : Z) (b : broker) (queues : list string)
    : list (string * string) :=
  flat_map (fun queue =>
    match expired now b queue with
    | [] => []
    | _ => [(_key ["activity"], queue)]
    end) queues.

(** An interrupted [waitpid] is retried; any other [OSError] is not. *)
Definition retried (e : wait_event) : Prop :=
  match e with
  | WaitTimer _ => True
  | WaitOSError errno => errno = EINTR
  end.

#[global] Instance termination_eq_dec : EqDecision termination.
Proof. solve_decision. Defined.

(** The operations on the broker that workers and producers interleave. *)
Inductive op : Type :=
  | OpDelay (func : pyfunc) (args kwargs : pyval) (queue : option string)
      (hard_timeout unique : pyval) (urandom : string) (now : Z)
  | OpClaim (queue : string) (now : Z)
  | OpSuccess (queue task_id : string) (unique : pyval)
  | OpFailure (queue task_id : string) (now : Z)
  | OpReclaim (now : Z).

Section operations.
Context `{lib : PyLib}.

Definition apply_op (o : op) (b : broker) : res broker :=
  match o with
  | OpDelay func args kwargs queue hard_timeout unique urandom now =>
      delay func args kwargs queue hard_timeout unique urandom now b
  | OpClaim queue now => mret (claim queue now b).2
  | OpSuccess queue task_id unique =>
      mret (reconcile_success queue task_id unique b)
  | OpFailure queue task_id now =>
      mret (reconcile_failure queue task_id now b)
  | OpReclaim now => mret (_worker_queue_expired_tasks now b)
  end.

(** The states reached from the empty broker by operations that meet
    [allowed] in the state they are applied to. *)
Inductive reachable_by (allowed : op → broker → Prop) : broker → Prop :=
  | reachable_empty : reachable_by allowed empty_broker
  | reachable_step b o b' :
      reachable_by allowed b → allowed o b → apply_op o b = inr b' →
      reachable_by allowed b'.

Definition reachable : broker → Prop := reachable_by (fun _ _ => True).

(** An enqueue whose task ID is in no sorted set but that of its queue, a
    failure reconciliation whose task ID is in no sorted set but the
    active and the error one of its queue; the other operations always. *)
Definition exclusive (o : op) (b : broker) : Prop :=
  match o with
  | OpDelay func args kwargs queue hard_timeout unique urandom now =>
      ∀ serialized_name k,
        _serialize_func_name func = inr serialized_name →
        member (task_id_of serialized_name args kwargs
                  (unique_of func unique) urandom) k b →
        k = bucket Queued (queue_of func queue)
  | OpFailure queue task_id now =>
      ∀ k, member task_id k b →
        k = bucket Active queue ∨ k = bucket Error queue
  | _ => True
  end.

End operations.

(** ** A library instance to run the program on examples

    A plain JSON printer for the values of the examples (no escapes are
    needed there), a decoder that knows the documents it is given, and an
    injective stand-in for the digest. *)

Definition dquote : string := String (Ascii.ascii_of_nat 34) EmptyString.

Definition key_le (p q : string * string) : Prop := String.leb p.1 q.1 = true.

#[global] Instance key_le_dec p q : Decision (key_le p q).
Proof. unfold key_le. apply _. Defined.

Fixpoint print_json (sort_keys : bool) (v : pyval) : string :=
  match v with
  | PNone => "null"
  | PBool true => "true"
  | PBool false => "false"
  | PNum z => pretty z
  | PStr s => dquote +:+ s +:+ dquote
  | PList l => "[" +:+ join ", " (map (print_json sort_keys) l) +:+ "]"
  | PDict d =>
      let items := map (fun kv => (kv.1, print_json sort_keys kv.2)) d in
      let items := if sort_keys then merge_sort key_le items else items in
      "{" +:+ join ", "
        (map (fun kv => dquote +:+ kv.1 +:+ dquote +:+ ": " +:+ kv.2) items)
      +:+ "}"
  end.

Definition parse_json (documents : list pyval) (s : string) : res pyval :=
  match List.find (fun v => String.eqb (print_json false v) s) documents with
  | Some v => mret v
  | None => raise ValueError
  end.

(** ** Example inputs *)

Definition simple_task : pyfunc :=
  PyFunc "tests.tasks" "simple_task" None None None.

Definition exception_task : pyfunc :=
  PyFunc "tests.tasks" "exception_task" None None None.

Definition unique_task : pyfunc :=
  task None PNone (PBool true)
    (PyFunc "tests.tasks" "unique_task" None None None).


(** Thirty-two bytes read from [/dev/urandom]. *)
Definition urandom_a : string := "0123456789abcdefghijklmnopqrstuv".

Definition task_id_a : string := Eval vm_compute in _gen_id urandom_a.

(** The record of [simple_task] enqueued at time 100 with a timeout of -1. *)
Definition record_negative_timeout : pyval :=
  PDict (task_record task_id_a
           "tests.tasks.simple_task" 100 (PBool false) PNone PNone
           (PNum (-1))).

(** A function object whose module the worker cannot import. *)
Definition missing_task : pyfunc :=
  PyFunc "no.such.module" "missing_task" None None None.

Definition record_of (func_name : string) (unique : pyval) (task_id : string)
    : pyval :=
  PDict (task_record task_id func_name 100 unique PNone PNone PNone).

Definition record_simple : pyval :=
  record_of "tests.tasks.simple_task" (PBool false) task_id_a.
Definition record_exception : pyval :=
  record_of "tests.tasks.exception_task" (PBool false) task_id_a.
Definition record_missing : pyval :=
  record_of "no.such.module.missing_task" (PBool false) task_id_a.

Definition task_id_unique : string :=
  Eval vm_compute in
    hex_encode (print_json true (PDict [
      ("func", PStr "tests.tasks.unique_task");
      ("args", PNone);
      ("kwargs", PNone)])).

Definition record_unique : pyval :=
  record_of "tests.tasks.unique_task" (PBool true) task_id_unique.

(** The documents the decoder of the examples knows. *)
Definition example_documents : list pyval := [
  record_negative_timeout;
  record_simple;
  record_exception;
  record_missing;
  record_unique
].

Definition example_lib : PyLib := {|
  json_dumps := print_json;
  json_loads := parse_json example_documents;
  sha256_hexdigest := hex_encode;
|}.

(** The argument [value] of [unique_task(value=None)] of the test tasks
    when it is called with [args] and [kwargs]; [None] when the call does
    not fit the signature, which raises [TypeError]. *)
Definition unique_task_value (args kwargs : pyval) : option pyval :=
  match args, kwargs with
  | PList [], PDict [] => Some PNone
  | PList [value], PDict [] => Some value
  | PList [], PDict [(k, value)] =>
      if String.eqb k "value" then Some value else None
  | _, _ => None
  end.

(** The text under which the broker stores a value it is sent,
    [str(value)]; a list or a dict is given its JSON text. *)
Definition pushed_text (value : pyval) : string :=
  match value with
  | PNone => "None"
  | PBool true => "True"
  | PBool false => "False"
  | PNum z => pretty z
  | PStr s => s
  | PList _ | PDict _ => print_json false value
  end.

(** The worker's environment of the examples: the module [tests.tasks] with
    its tasks, of which [exception_task] raises and [unique_task] pushes
    its value on the list [unique_task]; the others write nothing. *)
Definition example_env : child_env := {|
  import_module := fun module_name =>
    if String.eqb module_name "tests.tasks"
    then inr (fun attribute =>
      if String.eqb attribute "simple_task" then Some simple_task
      else if String.eqb attribute "exception_task" then Some exception_task
      else if String.eqb attribute "unique_task" then Some unique_task
      else None)
    else inl ImportError;
  call := fun func args kwargs hard_timeout b =>
    if String.eqb (__name__ func) "exception_task"
    then (Raised "StandardError: this failed", b)
    else if String.eqb (__name__ func) "unique_task"
    then
      match unique_task_value args kwargs with
      | Some value =>
          (Returned, conn.lpush "unique_task" (pushed_text value) b)
      | None => (Raised "TypeError", b)
      end
    else (Returned, b);
  format_exc := fun e => "Traceback (most recent call last)";
  time_started := 101;
  time_failed := 102;
|}.

(** The broker a call leaves; the empty broker when the call raises. *)
Definition broker_after (r : res broker) : broker :=
  match r with
  | inr b => b
  | inl _ => empty_broker
  end.

Definition processed (r : res (option string * broker)) : broker :=
  match r with
  | inr (_, b) => b
  | inl _ => empty_broker
  end.

Definition executed (r : res (bool * broker)) : broker :=
  match r with
  | inr (_, b) => b
  | inl _ => empty_broker
  end.

(** An environment in which the body of [unique_task] enqueues the task
    again, at time 102, before it returns. *)
Definition requeueing_env `{lib : PyLib} : child_env := {|
  import_module := import_module example_env;
  call := fun func args kwargs hard_timeout b =>
    match delay func PNone PNone None PNone PNone urandom_a 102 b with
    | inr b => (Returned, b)
    | inl _ => (Raised "ValueError", b)
    end;
  format_exc := format_exc example_env;
  time_started := 101;
  time_failed := 102;
|}.

Section example_states.
#[local] Existing Instance example_lib.

(** One task enqueued at time 100 on the default queue. *)
Definition enqueued (func : pyfunc) : broker :=
  broker_after
    (delay func PNone PNone None PNone PNone urandom_a 100 empty_broker).

(** A worker run in which the child runs to its exit while the parent
    sees one timer expiry and one interrupted wait. *)
Definition run_a : run :=
  Run 101 (ChildRuns example_env) [WaitTimer 111; WaitOSError 4] 103.

(** A worker run in which the body enqueues its task again. *)
Definition run_requeueing : run :=
  Run 101 (ChildRuns requeueing_env) [WaitTimer 111] 103.

(** What the execution of the claimed unique task leaves when its body
    has enqueued the task again: the ID is in the active and in the queued
    sorted set of the default queue. *)
Definition requeued_in_flight : broker :=
  executed
    (_execute "default" record_unique (fate run_requeueing)
       (waits run_requeueing)
       (claim "default" 101 (enqueued unique_task)).2).

(** An ID queued at time 50 whose record is gone. *)
Definition orphan_queued : broker :=
  conn.zadd (_key ["queued"; "default"]) "orphan" 50
    (conn.sadd (_key ["queued"]) "default" empty_broker).

(** The unique task enqueued on the default queue at time 100 and claimed
    at time 101. *)
Definition unique_claimed : broker :=
  (claim "default" 101 (enqueued unique_task)).2.

(** The unique task enqueued twice, on two queues. *)
Definition unique_on_two_queues : broker :=
  broker_after
    (delay unique_task PNone PNone (Some "other") PNone PNone urandom_a 200
       (enqueued unique_task)).

(** Two IDs in the active sorted set of the default queue, one last
    refreshed at time 10 and one at time 95. *)
Definition stale_active : broker :=
  conn.zadd (_key ["active"; "default"]) "stale" 10
    (conn.zadd (_key ["active"; "default"]) "fresh" 95
       (conn.sadd (_key ["active"]) "default" empty_broker)).

End example_states.

(** ** The activity channel *)

(** A message of the generator [pubsub.listen()]: its type and its data. *)
Record pubsub_message : Type := PubsubMessage {
  msg_type : string;
  msg_data : string;
}.

(** [_worker_update_queue_set].  [inbox] lists the messages the generator
    yields, in order, each with what [select] reports when the loop reaches
    it: whether the socket is readable at that moment.  A message whose
    socket is not readable yet is read all the same when the queue set is
    empty, the call of [gen.next()] blocking until it arrives.  After the
    last message of [inbox] nothing arrives any more: the socket is not
    readable, and a blocking read does not return ([None]). *)
Fixpoint _worker_update_queue_set (inbox : list (bool * pubsub_message))
    (queue_set : gset string) : option (gset string) :=
  match inbox with
  | [] => if decide (queue_set = ∅) then None else Some queue_set
  | (readable, message) :: inbox =>
      if readable || bool_decide (queue_set = ∅) then
        let queue_set :=
          if String.eqb (msg_type message) "message"
          then {[msg_data message]} ∪ queue_set
          else queue_set in
        _worker_update_queue_set inbox queue_set
      else Some queue_set
  end.

(** ** More notions used by the statements *)

(** The status set of [s] lists exactly the queues whose sorted set of
    status [s] is not empty. *)
Definition indexed (s : status) (b : broker) : Prop :=
  ∀ queue,
    queue ∈ conn.smembers (_key [status_name s]) b ↔
    conn.zset (bucket s queue) b ≠ ∅.

(** The clock reading of the last timer expiry among [events]. *)
Fixpoint last_timer (events : list wait_event) : option Z :=
  match events with
  | [] => None
  | WaitTimer now :: events =>
      match last_timer events with
      | Some later => Some later
      | None => Some now
      end
  | WaitOSError _ :: events => last_timer events
  end.

(** A character other than the dot, the colon; a lower-case hex digit. *)
Definition dot : Ascii.ascii := Ascii.ascii_of_nat 46.
Definition colon : Ascii.ascii := Ascii.ascii_of_nat 58.

Definition is_hex (c : Ascii.ascii) : Prop :=
  let n := Ascii.N_of_ascii c in
  (48 <= n <= 57)%N ∨ (97 <= n <= 102)%N.

(** The characters of a string. *)
Fixpoint chars (s : string) : list Ascii.ascii :=
  match s with
  | EmptyString => []
  | String c rest => c :: chars rest
  end.

(** The call of the task body for a task record: the arguments, the
    keyword arguments and the deadline the executor passes, on the broker
    the body finds. *)
Definition call_of (env : child_env) (d : pydict) (func : pyfunc)
    (b : broker) : call_outcome * broker :=
  call env func
    (dict_get_default "args" (PList []) d)
    (dict_get_default "kwargs" (PDict []) d)
    (py_or (dict_get_default "hard_timeout" PNone d)
       (py_or (getattr_default (_task_hard_timeout func) PNone)
          (PNum DEFAULT_HARD_TIMEOUT)))
    b.

(** The execution record of a task body that raised. *)
Definition failure_record (env : child_env) (traceback : string) : pyval :=
  PDict [
    ("time_started", PNum (time_started env));
    ("traceback", PStr traceback);
    ("time_failed", PNum (time_failed env));
    ("success", PBool false)
  ].

#[global] Instance status_eq_dec : EqDecision status.
Proof. solve_decision. Defined.

(** ** More example inputs *)

(** [task_on_other_queue] of the test tasks, before its decorator. *)
Definition task_on_other_queue : pyfunc :=
  PyFunc "tests.tasks" "task_on_other_queue" None None None.


(** What the activity channel delivers in one call: the subscription
    acknowledgement, an announcement of the default queue, and an
    announcement that is not yet readable. *)
Definition inbox_a : list (bool * pubsub_message) :=
  [(true, PubsubMessage "subscribe" "1");
   (true, PubsubMessage "message" "default");
   (false, PubsubMessage "message" "other")].

(** * Properties *)

(** ** The client's commands, seen through the accessors *)

Lemma zset_zadd k k' m s b :
  conn.zset k' (conn.zadd k m s b) =
  if decide (k = k') then <[m := s]> (conn.zset k b) else conn.zset k' b.
Proof.
  unfold conn.zset at 1. simpl. case_decide as Hk.
  - subst. by rewrite lookup_insert_eq.
  - by rewrite lookup_insert_ne.
Qed.

Lemma zset_zrem k k' m b :
  conn.zset k' (conn.zrem k m b) =
  if decide (k = k') then delete m (conn.zset k b) else conn.zset k' b.
Proof.
  unfold conn.zset at 1. simpl. case_decide as Hk.
  - subst. by rewrite lookup_insert_eq.
  - by rewrite lookup_insert_ne.
Qed.

Lemma smembers_sadd k k' m b :
  conn.smembers k' (conn.sadd k m b) =
  if decide (k = k') then {[m]} ∪ conn.smembers k b else conn.smembers k' b.
Proof.
  unfold conn.smembers at 1. simpl. case_decide as Hk.
  - subst. by rewrite lookup_insert_eq.
  - by rewrite lookup_insert_ne.
Qed.

Lemma smembers_srem k k' m b :
  conn.smembers k' (conn.srem k m b) =
  if decide (k = k') then conn.smembers k b ∖ {[m]} else conn.smembers k' b.
Proof.
  unfold conn.smembers at 1. simpl. case_decide as Hk.
  - subst. by rewrite lookup_insert_eq.
  - by rewrite lookup_insert_ne.
Qed.

Lemma lrange_rpush k k' v b :
  conn.lrange k' (conn.rpush k v b) =
  if decide (k = k') then conn.lrange k b ++ [v] else conn.lrange k' b.
Proof.
  unfold conn.lrange at 1. simpl. case_decide as Hk.
  - subst. by rewrite lookup_insert_eq.
  - by rewrite lookup_insert_ne.
Qed.

(** A command leaves the data of the other kinds alone. *)
Lemma zset_sadd k k' m b : conn.zset k' (conn.sadd k m b) = conn.zset k' b.
Proof. reflexivity. Qed.
Lemma zset_srem k k' m b : conn.zset k' (conn.srem k m b) = conn.zset k' b.
Proof. reflexivity. Qed.
Lemma zset_set k k' v b : conn.zset k' (conn.set k v b) = conn.zset k' b.
Proof. reflexivity. Qed.
Lemma zset_delete k k' b : conn.zset k' (conn.delete k b) = conn.zset k' b.
Proof. reflexivity. Qed.
Lemma zset_rpush k k' v b : conn.zset k' (conn.rpush k v b) = conn.zset k' b.
Proof. reflexivity. Qed.
Lemma zset_publish c m k' b :
  conn.zset k' (conn.publish c m b) = conn.zset k' b.
Proof. reflexivity. Qed.

Lemma smembers_zadd k k' m s b :
  conn.smembers k' (conn.zadd k m s b) = conn.smembers k' b.
Proof. reflexivity. Qed.
Lemma smembers_zrem k k' m b :
  conn.smembers k' (conn.zrem k m b) = conn.smembers k' b.
Proof. reflexivity. Qed.
Lemma smembers_set k k' v b :
  conn.smembers k' (conn.set k v b) = conn.smembers k' b.
Proof. reflexivity. Qed.
Lemma smembers_delete k k' b :
  conn.smembers k' (conn.delete k b) = conn.smembers k' b.
Proof. reflexivity. Qed.
Lemma smembers_publish c m k' b :
  conn.smembers k' (conn.publish c m b) = conn.smembers k' b.
Proof. reflexivity. Qed.

Lemma get_set k k' v b :
  conn.get k' (conn.set k v b) =
  if decide (k = k') then Some v else conn.get k' b.
Proof.
  unfold conn.get. simpl. case_decide as Hk.
  - subst. by rewrite lookup_insert_eq.
  - by rewrite lookup_insert_ne.
Qed.
Lemma get_delete k k' b :
  conn.get k' (conn.delete k b) =
  if decide (k = k') then None else conn.get k' b.
Proof.
  unfold conn.get. simpl. case_decide as Hk.
  - subst. by rewrite lookup_delete_eq.
  - by rewrite lookup_delete_ne.
Qed.
Lemma get_sadd k k' m b : conn.get k' (conn.sadd k m b) = conn.get k' b.
Proof. reflexivity. Qed.
Lemma get_srem k k' m b : conn.get k' (conn.srem k m b) = conn.get k' b.
Proof. reflexivity. Qed.
Lemma get_zadd k k' m s b : conn.get k' (conn.zadd k m s b) = conn.get k' b.
Proof. reflexivity. Qed.
Lemma get_zrem k k' m b : conn.get k' (conn.zrem k m b) = conn.get k' b.
Proof. reflexivity. Qed.
Lemma get_publish c m k' b : conn.get k' (conn.publish c m b) = conn.get k' b.
Proof. reflexivity. Qed.

Create Rewrite HintDb broker.
#[global] Hint Rewrite zset_zadd zset_zrem zset_sadd zset_srem zset_set
  zset_delete zset_rpush zset_publish smembers_sadd smembers_srem
  smembers_zadd smembers_zrem smembers_set smembers_delete smembers_publish
  get_set get_delete get_sadd get_srem get_zadd get_zrem get_publish
  lrange_rpush : broker.

(** ** Keys *)

(** Keys are literal prefixes followed by a name: two keys are told apart,
    or their names identified, by comparing them character by character. *)
Ltac key_eq H := cbn in H; simplify_eq.
Ltac keys := intros; let H := fresh in intros H; key_eq H.

Lemma bucket_inj s1 q1 s2 q2 :
  bucket s1 q1 = bucket s2 q2 → s1 = s2 ∧ q1 = q2.
Proof. destruct s1, s2; intros H; key_eq H; done. Qed.

Lemma active_neq_queued q q' : _key ["active"; q] ≠ _key ["queued"; q'].
Proof. keys. Qed.

Lemma active_neq_error q q' : _key ["active"; q] ≠ _key ["error"; q'].
Proof. keys. Qed.

Lemma queued_neq_error q q' : _key ["queued"; q] ≠ _key ["error"; q'].
Proof. keys. Qed.

Lemma active_inj q q' : _key ["active"; q] = _key ["active"; q'] → q = q'.
Proof. intros H. by key_eq H. Qed.

Lemma queued_inj q q' : _key ["queued"; q] = _key ["queued"; q'] → q = q'.
Proof. intros H. by key_eq H. Qed.

(** ** The executor's outcome *)

Section executor.
Context `{lib : PyLib}.

Lemma wait_child_returns queue task id events return_code b :
  Forall retried events →
  py_getitem task "id" = inr (PStr id) →
  ∃ b', wait_child queue task events return_code b = inr (return_code, b')
        ∧ sets b' = sets b ∧ strings b' = strings b
        ∧ lists b' = lists b ∧ published b' = published b
        ∧ ∀ k, k ≠ _key ["active"; queue] →
               conn.zset k b' = conn.zset k b.
Proof.
  intros Hev Hid. revert b.
  induction Hev as [|e events He _ IH]; intros b.
  - exists b. by repeat split.
  - destruct e as [now|errno]; simpl.
    + rewrite Hid. simpl.
      destruct (IH (_heartbeat queue id now b))
        as (b' & -> & ? & ? & ? & ? & Hz).
      exists b'. repeat split; try done.
      intros k Hk. rewrite (Hz k Hk). unfold _heartbeat.
      rewrite zset_zadd. by case_decide.
    + simpl in He. subst errno. simpl. apply IH.
Qed.

Lemma wait_status_zero t :
  valid_termination t → wait_status t = 0 ↔ t = Exited 0.
Proof.
  destruct t as [code|signum core]; simpl; intros Hv.
  - change 255 with (Z.ones 8). rewrite Z.land_ones by lia.
    rewrite Z.mod_small by (change (2 ^ 8) with 256; lia).
    rewrite Z.shiftl_mul_pow2 by lia. split.
    + intros Hc. f_equal. lia.
    + intros [= ->]. done.
  - split; [|done]. intros Hs. apply Z.lor_eq_0_iff in Hs as [Hs _].
    change 127 with (Z.ones 7) in Hs. rewrite Z.land_ones in Hs by lia.
    rewrite Z.mod_small in Hs by (change (2 ^ 7) with 128; lia). lia.
Qed.

(** C7.  Whatever way the child ends, the parent's side of [_execute]
    returns, and its outcome is success exactly when the child exited with
    code zero; a child terminated by a signal is reported as a failure.
    That outcome is what [_execute] returns when its child ends this way. *)
Theorem C7_success_iff_exit_code_zero queue task id events t b :
  valid_termination t →
  Forall retried events →
  py_getitem task "id" = inr (PStr id) →
  ∃ status b',
    supervise queue task events t b = inr (status, b')
    ∧ (status = true ↔ t = Exited 0)
    ∧ (∀ signum core, t = Signaled signum core → status = false)
    ∧ (∀ child b0,
         run_child child task b0 = (t, b) →
         _execute queue task child events b0 = inr (status, b')).
Proof.
  intros Hv Hev Hid.
  destruct (wait_child_returns queue task id events (wait_status t) b
              Hev Hid) as (b' & Hw & _).
  assert (supervise queue task events t b
          = inr (wait_status t =? 0, b')) as Hsup.
  { unfold supervise. by rewrite Hw. }
  exists (wait_status t =? 0), b'. split_and!.
  - exact Hsup.
  - rewrite Z.eqb_eq. by apply wait_status_zero.
  - intros signum core ->. apply Z.eqb_neq. intros Hz.
    by apply wait_status_zero in Hz.
  - intros child b0 Hchild. unfold _execute. by rewrite Hchild.
Qed.

End executor.

(** ** Enqueue *)

Section enqueue.
Context `{lib : PyLib}.

Lemma _serialize_func_name_ok func :
  __module__ func ≠ "__main__" →
  _serialize_func_name func =
  inr (__module__ func +:+ "." +:+ __name__ func).
Proof.
  intros Hm. unfold _serialize_func_name.
  apply String.eqb_neq in Hm. by rewrite Hm.
Qed.

Lemma task_record_id task_id name now unique args kwargs hard_timeout :
  dict_get "id"
    (task_record task_id name now unique args kwargs hard_timeout)
  = Some (PStr task_id).
Proof.
  unfold task_record.
  by destruct (truthy unique), (truthy args), (truthy kwargs),
    (truthy hard_timeout).
Qed.


(** What [delay] leaves in the broker, for a function outside [__main__]. *)
Lemma delay_effect func args kwargs queue hard_timeout unique urandom now b :
  __module__ func ≠ "__main__" →
  let name := __module__ func +:+ "." +:+ __name__ func in
  let flag := unique_of func unique in
  let task_id := task_id_of name args kwargs flag urandom in
  let q := queue_of func queue in
  ∃ b',
    delay func args kwargs queue hard_timeout unique urandom now b = inr b'
    ∧ conn.get (_key ["task"; task_id]) b' =
        Some (json_dumps false (PDict
          (task_record task_id name now flag args kwargs hard_timeout)))
    ∧ (∀ k, k ≠ _key ["task"; task_id] → conn.get k b' = conn.get k b)
    ∧ conn.zset (bucket Queued q) b' =
        <[task_id := now]> (conn.zset (bucket Queued q) b)
    ∧ (∀ k, k ≠ bucket Queued q → conn.zset k b' = conn.zset k b)
    ∧ conn.smembers (_key ["queued"]) b' =
        {[q]} ∪ conn.smembers (_key ["queued"]) b
    ∧ (∀ k, k ≠ _key ["queued"] → conn.smembers k b' = conn.smembers k b)
    ∧ lists b' = lists b
    ∧ published b' = published b ++ [(_key ["activity"], q)].
Proof.
  intros Hm name flag task_id q. eexists. split.
  { unfold delay. rewrite (_serialize_func_name_ok _ Hm). reflexivity. }
  repeat split.
  - autorewrite with broker. by rewrite decide_True.
  - intros k Hk. autorewrite with broker. by rewrite decide_False.
  - autorewrite with broker. by rewrite decide_True.
  - intros k Hk. autorewrite with broker. by rewrite decide_False.
  - autorewrite with broker. by rewrite decide_True.
  - intros k Hk. autorewrite with broker. by rewrite decide_False.
Qed.

(** C5.  Two enqueues of a unique task with the same function, [args] and
    [kwargs] derive the same task ID, whatever the queue, timeout, time
    and broker state: the hex SHA-256 digest of the JSON serialization,
    with sorted keys, of [{func, args, kwargs}].  It is the ID written to
    the record and inserted into the queue's sorted set by both calls. *)
Theorem C5_unique_task_id func args kwargs
    queue1 hard_timeout1 unique1 urandom1 now1 b1
    queue2 hard_timeout2 unique2 urandom2 now2 b2 :
  __module__ func ≠ "__main__" →
  truthy (unique_of func unique1) = true →
  truthy (unique_of func unique2) = true →
  let task_id :=
    sha256_hexdigest (json_dumps true (PDict [
      ("func", PStr (__module__ func +:+ "." +:+ __name__ func));
      ("args", args);
      ("kwargs", kwargs)])) in
  ∃ b1' b2' d1 d2,
    delay func args kwargs queue1 hard_timeout1 unique1 urandom1 now1 b1
      = inr b1'
    ∧ delay func args kwargs queue2 hard_timeout2 unique2 urandom2 now2 b2
      = inr b2'
    ∧ conn.zscore (bucket Queued (queue_of func queue1)) task_id b1'
      = Some now1
    ∧ conn.zscore (bucket Queued (queue_of func queue2)) task_id b2'
      = Some now2
    ∧ conn.get (_key ["task"; task_id]) b1'
      = Some (json_dumps false (PDict d1))
    ∧ conn.get (_key ["task"; task_id]) b2'
      = Some (json_dumps false (PDict d2))
    ∧ dict_get "id" d1 = Some (PStr task_id)
    ∧ dict_get "id" d2 = Some (PStr task_id).
Proof.
  intros Hm Hu1 Hu2 task_id.
  destruct (delay_effect func args kwargs queue1 hard_timeout1 unique1
              urandom1 now1 b1 Hm) as (b1' & Hd1 & Hr1 & _ & Hz1 & _).
  destruct (delay_effect func args kwargs queue2 hard_timeout2 unique2
              urandom2 now2 b2 Hm) as (b2' & Hd2 & Hr2 & _ & Hz2 & _).
  unfold task_id_of in *. rewrite Hu1 in Hr1, Hz1. rewrite Hu2 in Hr2, Hz2.
  exists b1', b2'. eexists. eexists.
  split; [exact Hd1|]. split; [exact Hd2|].
  split. { unfold conn.zscore. rewrite Hz1. apply lookup_insert_eq. }
  split. { unfold conn.zscore. rewrite Hz2. apply lookup_insert_eq. }
  split; [exact Hr1|]. split; [exact Hr2|].
  split; apply task_record_id.
Qed.

Lemma task_record_requeued task_id name now0 now unique0 unique args kwargs
    hard_timeout :
  truthy unique0 = truthy unique →
  task_record task_id name now unique args kwargs hard_timeout =
  dict_set "time_last_queued" (PNum now)
    (task_record task_id name now0 unique0 args kwargs hard_timeout).
Proof.
  intros Hu. unfold task_record. rewrite Hu.
  by destruct (truthy unique), (truthy args), (truthy kwargs),
    (truthy hard_timeout).
Qed.

(** C4, as amended.  Enqueueing a unique task again, with the same function,
    [args] and [kwargs] (and the same hard timeout), while its record of an
    earlier enqueue is in place, leaves every sorted set other than the
    queued one of the target queue as it was, the active and the error ones
    in particular; it sets the score of the ID in the queued sorted set to
    the time of the call, so that the members of that set are the same iff
    the ID was among them already; and the record it writes differs from the
    one in place in [time_last_queued] alone. *)
Theorem C4_unique_requeue func args kwargs hard_timeout
    queue0 unique0 urandom0 now0 b0 b0'
    queue unique urandom now b :
  truthy (unique_of func unique0) = true →
  truthy (unique_of func unique) = true →
  delay func args kwargs queue0 hard_timeout unique0 urandom0 now0 b0
    = inr b0' →
  let task_id :=
    _gen_unique_id (__module__ func +:+ "." +:+ __name__ func) args kwargs in
  let q := queue_of func queue in
  conn.get (_key ["task"; task_id]) b = conn.get (_key ["task"; task_id]) b0' →
  ∃ b' d,
    delay func args kwargs queue hard_timeout unique urandom now b = inr b'
    ∧ (∀ q', conn.zset (bucket Active q') b' = conn.zset (bucket Active q') b)
    ∧ (∀ q', conn.zset (bucket Error q') b' = conn.zset (bucket Error q') b)
    ∧ (∀ k, k ≠ bucket Queued q → conn.zset k b' = conn.zset k b)
    ∧ conn.zset (bucket Queued q) b' =
        <[task_id := now]> (conn.zset (bucket Queued q) b)
    ∧ (dom (conn.zset (bucket Queued q) b') = dom (conn.zset (bucket Queued q) b)
       ↔ member task_id (bucket Queued q) b)
    ∧ conn.get (_key ["task"; task_id]) b = Some (json_dumps false (PDict d))
    ∧ conn.get (_key ["task"; task_id]) b' =
        Some (json_dumps false
                (PDict (dict_set "time_last_queued" (PNum now) d)))
    ∧ (∀ k, k ≠ _key ["task"; task_id] → conn.get k b' = conn.get k b)
    ∧ lists b' = lists b.
Proof.
  intros Hu0 Hu Hprev task_id q Hrec.
  assert (__module__ func ≠ "__main__") as Hm.
  { intros Hmain. unfold delay, _serialize_func_name in Hprev.
    rewrite Hmain in Hprev. discriminate. }
  destruct (delay_effect func args kwargs queue0 hard_timeout unique0
              urandom0 now0 b0 Hm) as (b0'' & Hd0 & Hr0 & _).
  rewrite Hprev in Hd0. injection Hd0 as <-.
  destruct (delay_effect func args kwargs queue hard_timeout unique
              urandom now b Hm) as (b' & Hd & Hr & Hro & Hzq & Hz & _ & _
                                     & Hl & _).
  unfold task_id_of in *. rewrite Hu0 in Hr0. rewrite Hu in Hr, Hro, Hzq.
  fold task_id in Hr0, Hr, Hro, Hzq. fold q in Hzq, Hz.
  exists b'. eexists. split; [exact Hd|]. split_and!.
  - intros q'. apply Hz. unfold q, bucket. simpl status_name.
    apply active_neq_queued.
  - intros q'. apply Hz. unfold q, bucket. simpl status_name.
    apply not_eq_sym, queued_neq_error.
  - exact Hz.
  - exact Hzq.
  - rewrite Hzq, dom_insert_L. unfold member, conn.zscore.
    rewrite <- elem_of_dom. split.
    + intros <-. apply elem_of_union_l, elem_of_singleton. done.
    + intros Hin. apply set_eq. intros x.
      rewrite elem_of_union, elem_of_singleton. split; [|by right].
      by intros [->|?].
  - rewrite Hrec. exact Hr0.
  - rewrite Hr. do 3 f_equal. apply task_record_requeued.
    by rewrite Hu, Hu0.
  - exact Hro.
  - exact Hl.
Qed.



End enqueue.

(** ** The atomic scripts *)

Lemma elem_of_zrangebyscore k max_score b id :
  id ∈ scripts.zrangebyscore k max_score b ↔
  ∃ s, conn.zscore k id b = Some s ∧ scripts.score_le max_score (id, s).
Proof.
  unfold scripts.zrangebyscore, conn.zscore. rewrite list_elem_of_fmap. split.
  - intros ([id' s] & -> & Hin). apply list_elem_of_filter in Hin as [Hle Hin].
    rewrite merge_sort_Permutation in Hin.
    apply elem_of_map_to_list in Hin. eauto.
  - intros (s & Hs & Hle). exists (id, s). split; [done|].
    apply list_elem_of_filter. split; [done|].
    rewrite merge_sort_Permutation. by apply elem_of_map_to_list.
Qed.

Lemma NoDup_zrangebyscore k max_score b :
  NoDup (scripts.zrangebyscore k max_score b).
Proof.
  unfold scripts.zrangebyscore.
  eapply sublist_NoDup; [|apply fmap_sublist, sublist_filter].
  rewrite merge_sort_Permutation. apply NoDup_fst_map_to_list.
Qed.

(** The sorted sets after moving [ids] from [src] to [dst]. *)
Lemma zset_moved src dst new_score ids b k id :
  conn.zset k (foldl (scripts.move src dst new_score) b ids) !! id =
  if decide (id ∈ ids) then
    if decide (k = dst) then Some new_score
    else if decide (k = src) then None
    else conn.zset k b !! id
  else conn.zset k b !! id.
Proof.
  revert b. induction ids as [|x ids IH]; intros b.
  { rewrite decide_False; [done|]. by intros ?%elem_of_nil. }
  cbn [foldl]. rewrite IH. unfold scripts.move. autorewrite with broker.
  destruct (decide (id = x)) as [->|Hx].
  - rewrite (decide_True (P := x ∈ x :: ids)) by (by left).
    repeat case_decide; simplify_eq;
      rewrite ?lookup_insert_eq, ?lookup_delete_eq; done.
  - assert (id ∈ x :: ids ↔ id ∈ ids) as Hin.
    { rewrite elem_of_cons. split; [by intros [?|?]|by right]. }
    repeat case_decide; simplify_eq;
      rewrite ?lookup_insert_ne, ?lookup_delete_ne by done;
      try done; tauto.
Qed.

Lemma moved_frame src dst new_score ids b :
  let b' := foldl (scripts.move src dst new_score) b ids in
  sets b' = sets b ∧ strings b' = strings b ∧ lists b' = lists b
  ∧ published b' = published b.
Proof.
  revert b. induction ids as [|x ids IH]; intros b; simpl; [done|].
  destruct (IH (scripts.move src dst new_score b x)) as (-> & -> & -> & ->).
  done.
Qed.

Lemma zpoppush_ids src dst count max_score new_score on_success b :
  (scripts.zpoppush src dst count max_score new_score on_success b).1 =
  take count (scripts.zrangebyscore src max_score b).
Proof. reflexivity. Qed.

Lemma zpoppush_zset src dst count max_score new_score on_success b k id :
  conn.zset k
    (scripts.zpoppush src dst count max_score new_score on_success b).2 !! id
  = if decide (id ∈ take count (scripts.zrangebyscore src max_score b)) then
      if decide (k = dst) then Some new_score
      else if decide (k = src) then None
      else conn.zset k b !! id
    else conn.zset k b !! id.
Proof.
  rewrite <- zset_moved. unfold scripts.zpoppush. simpl.
  destruct on_success as [[src_set dst_set queue]|]; [|done].
  destruct (take count _); [done|]. by case_decide.
Qed.

Lemma zpoppush_frame src dst count max_score new_score on_success b :
  let b' :=
    (scripts.zpoppush src dst count max_score new_score on_success b).2 in
  strings b' = strings b ∧ lists b' = lists b ∧ published b' = published b.
Proof.
  unfold scripts.zpoppush. simpl.
  destruct (moved_frame src dst new_score
              (take count (scripts.zrangebyscore src max_score b)) b)
    as (_ & Hs & Hl & Hp).
  destruct on_success as [[src_set dst_set queue]|]; [|done].
  destruct (take count _); [done|]. by case_decide.
Qed.

(** Nothing moved: the status sets stay as they are. *)
Lemma zpoppush_sets_nil src dst count max_score new_score on_success b :
  take count (scripts.zrangebyscore src max_score b) = [] →
  (scripts.zpoppush src dst count max_score new_score on_success b).2 = b.
Proof.
  intros Hnil. unfold scripts.zpoppush. rewrite Hnil. simpl.
  by destruct on_success as [[src_set dst_set queue]|].
Qed.

(** Something moved: the queue joins [dst_set], and leaves [src_set] iff
    [src] is empty afterwards. *)
Lemma zpoppush_smembers src dst count max_score new_score src_set dst_set
    queue b k :
  take count (scripts.zrangebyscore src max_score b) ≠ [] →
  let b' :=
    (scripts.zpoppush src dst count max_score new_score
       (Some (update_sets src_set dst_set queue)) b).2 in
  let added :=
    if decide (dst_set = k) then {[queue]} ∪ conn.smembers k b
    else conn.smembers k b in
  conn.smembers k b' =
  if decide (conn.zcard src b' = 0%nat ∧ src_set = k)
  then added ∖ {[queue]} else added.
Proof.
  intros Hne. unfold scripts.zpoppush. simpl.
  destruct (take count _) as [|x ids] eqn:Hids; [done|].
  pose proof (moved_frame src dst new_score (x :: ids) b) as (Hsets & _).
  simpl in Hsets.
  set (b1 := foldl (scripts.move src dst new_score)
               (scripts.move src dst new_score b x) ids) in *.
  assert (∀ k, conn.smembers k b1 = conn.smembers k b) as Hsm.
  { intros k'. unfold conn.smembers. by rewrite Hsets. }
  case_decide as Hcard.
  - unfold conn.zcard in *. autorewrite with broker in *. rewrite !Hsm.
    destruct (decide (src_set = k)) as [->|Hk].
    + rewrite (decide_True (P := _ ∧ _)) by (by split).
      by case_decide; subst.
    + rewrite (decide_False (P := _ ∧ _)) by tauto. by case_decide; subst.
  - unfold conn.zcard in *. autorewrite with broker in *. rewrite !Hsm.
    rewrite (decide_False (P := _ ∧ _)) by tauto. by case_decide; subst.
Qed.

(** ** The worker's pass over a queue *)

Section worker.
Context `{lib : PyLib}.

Lemma claim_at_most_one queue now b :
  (length (claim queue now b).1 < 2)%nat.
Proof.
  unfold claim. rewrite zpoppush_ids, length_take. lia.
Qed.

(** [srem_if_not_exists] on the status set of a sorted set. *)
Lemma srem_if_not_exists_effect status_set queue key b :
  let b' := scripts.srem_if_not_exists status_set queue key b in
  (∀ k, conn.zset k b' = conn.zset k b)
  ∧ strings b' = strings b ∧ lists b' = lists b
  ∧ published b' = published b
  ∧ (∀ k, k ≠ status_set → conn.smembers k b' = conn.smembers k b)
  ∧ (∀ q, q ∈ conn.smembers status_set b' ↔
          q ∈ conn.smembers status_set b
          ∧ ¬ (q = queue ∧ conn.zcard key b' = 0%nat)).
Proof.
  unfold scripts.srem_if_not_exists. case_decide as Hcard; simpl.
  - split_and!; try done.
    + intros k Hk. autorewrite with broker. by rewrite decide_False.
    + intros q. autorewrite with broker. rewrite decide_True by done.
      rewrite elem_of_difference, elem_of_singleton. split.
      * intros [? ?]. split; [done|]. tauto.
      * intros [? Hn]. split; [done|]. intros ->. apply Hn. done.
  - split_and!; try done. intros q. split; [|tauto].
    intros Hq. split; [done|]. tauto.
Qed.

Lemma reconcile_success_effect queue task_id unique b :
  let b' := reconcile_success queue task_id unique b in
  let kept :=
    truthy unique
    && (bool_decide (member task_id (bucket Queued queue) b)
        || bool_decide (member task_id (bucket Error queue) b)) in
  conn.zset (bucket Active queue) b' =
    delete task_id (conn.zset (bucket Active queue) b)
  ∧ (∀ k, k ≠ bucket Active queue → conn.zset k b' = conn.zset k b)
  ∧ conn.get (_key ["task"; task_id]) b' =
      (if kept then conn.get (_key ["task"; task_id]) b else None)
  ∧ (∀ k, k ≠ _key ["task"; task_id] → conn.get k b' = conn.get k b)
  ∧ (∀ q, q ∈ conn.smembers (_key ["active"]) b' ↔
          q ∈ conn.smembers (_key ["active"]) b
          ∧ ¬ (q = queue ∧ conn.zcard (bucket Active queue) b' = 0%nat))
  ∧ (∀ k, k ≠ _key ["active"] → conn.smembers k b' = conn.smembers k b)
  ∧ lists b' = lists b
  ∧ published b' = published b.
Proof.
  intros b' kept. unfold reconcile_success in b'.
  set (b1 := conn.zrem (_key ["active"; queue]) task_id b) in *.
  set (b2 := if truthy unique
             then scripts.delete_if_not_in_zsets (_key ["task"; task_id])
                    task_id [_key ["queued"; queue]; _key ["error"; queue]]
                    b1
             else conn.delete (_key ["task"; task_id]) b1) in *.
  destruct (srem_if_not_exists_effect (_key ["active"]) queue
              (_key ["active"; queue]) b2)
    as (Hz & Hs & Hl & Hp & Hsm & Hact).
  fold b' in Hz, Hs, Hl, Hp, Hsm, Hact.
  assert (b2 = if kept then b1 else conn.delete (_key ["task"; task_id]) b1)
    as Hb2.
  { unfold b2, kept, scripts.delete_if_not_in_zsets, member, conn.zscore,
      bucket. simpl status_name. destruct (truthy unique); [|done].
    unfold b1. cbn [existsb andb]. autorewrite with broker.
    rewrite (decide_False (P := _ = _ ["queued"; _]))
      by apply active_neq_queued.
    rewrite (decide_False (P := _ = _ ["error"; _]))
      by apply active_neq_error.
    by rewrite orb_false_r. }
  assert (∀ k, conn.zset k b2 = conn.zset k b1) as Hz2.
  { intros k. rewrite Hb2. by destruct kept. }
  assert (∀ k, conn.smembers k b2 = conn.smembers k b) as Hsm2.
  { intros k. rewrite Hb2. by destruct kept. }
  assert (∀ k, conn.get k b' = conn.get k b2) as Hg.
  { intros k. unfold conn.get. by rewrite Hs. }
  split_and!.
  - rewrite Hz, Hz2. unfold b1, bucket. simpl status_name.
    autorewrite with broker. by rewrite decide_True.
  - intros k Hk. rewrite Hz, Hz2. unfold b1. autorewrite with broker.
    by rewrite decide_False.
  - rewrite Hg, Hb2. destruct kept; [done|]. autorewrite with broker.
    by rewrite decide_True.
  - intros k Hk. rewrite Hg, Hb2. destruct kept; [done|].
    autorewrite with broker. by rewrite decide_False.
  - intros q. rewrite Hact. by rewrite Hsm2.
  - intros k Hk. by rewrite Hsm, Hsm2.
  - rewrite Hl, Hb2. by destruct kept.
  - rewrite Hp, Hb2. by destruct kept.
Qed.

Lemma reconcile_failure_effect queue task_id now b :
  let b' := reconcile_failure queue task_id now b in
  conn.zset (bucket Active queue) b' =
    delete task_id (conn.zset (bucket Active queue) b)
  ∧ conn.zset (bucket Error queue) b' =
    <[task_id := now]> (conn.zset (bucket Error queue) b)
  ∧ (∀ k, k ≠ bucket Active queue → k ≠ bucket Error queue →
          conn.zset k b' = conn.zset k b)
  ∧ (∀ q, q ∈ conn.smembers (_key ["active"]) b' ↔
          q ∈ conn.smembers (_key ["active"]) b
          ∧ ¬ (q = queue ∧ conn.zcard (bucket Active queue) b' = 0%nat))
  ∧ (∀ k, k ≠ _key ["active"] → conn.smembers k b' = conn.smembers k b)
  ∧ strings b' = strings b
  ∧ lists b' = lists b
  ∧ published b' = published b.
Proof.
  intros b'. unfold reconcile_failure in b'.
  set (b2 := conn.zadd (_key ["error"; queue]) task_id now
               (conn.zrem (_key ["active"; queue]) task_id b)) in *.
  destruct (srem_if_not_exists_effect (_key ["active"]) queue
              (_key ["active"; queue]) b2)
    as (Hz & Hs & Hl & Hp & Hsm & Hact).
  fold b' in Hz, Hs, Hl, Hp, Hsm, Hact.
  unfold bucket. simpl status_name. split_and!.
  - rewrite Hz. unfold b2. autorewrite with broker.
    rewrite decide_False by (apply not_eq_sym, active_neq_error).
    by rewrite decide_True.
  - rewrite Hz. unfold b2. autorewrite with broker.
    rewrite decide_True by done.
    by rewrite decide_False by apply active_neq_error.
  - intros k Hk1 Hk2. rewrite Hz. unfold b2. autorewrite with broker.
    rewrite decide_False by done. by rewrite decide_False.
  - intros q. by rewrite Hact.
  - intros k Hk. by rewrite Hsm.
  - by rewrite Hs.
  - by rewrite Hl.
  - by rewrite Hp.
Qed.

(** A claimed ID whose record is found and decoded: the call is the
    execution followed by the reconciliation of its outcome. *)
Lemma _process_from_queue_executed queue r b task_id serialized_task task
    success b1 :
  (claim queue (now_claim r) b).1 = [task_id] →
  conn.get (_key ["task"; task_id]) (claim queue (now_claim r) b).2
    = Some serialized_task →
  serialized_task ≠ EmptyString →
  json_loads serialized_task = inr task →
  _execute queue task (fate r) (waits r) (claim queue (now_claim r) b).2
    = inr (success, b1) →
  _process_from_queue queue r b =
  if success then
    unique ← py_get task "unique" (PBool false);
    mret (Some task_id, reconcile_success queue task_id unique b1)
  else
    mret (Some task_id, reconcile_failure queue task_id (now_failed r) b1).
Proof.
  intros Hids Hget Hne Hloads Hexec. unfold _process_from_queue.
  destruct (claim queue (now_claim r) b) as [ids b0]. simpl in *.
  subst ids. simpl. rewrite Hget.
  apply String.eqb_neq in Hne. rewrite Hne, Hloads. simpl.
  rewrite Hexec. simpl. by destruct success.
Qed.

(** C6.  After a successful execution of a task claimed from a queue, the
    reconciliation removes the ID from the active sorted set of the queue;
    deletes the record when the task is not unique, and when it is unique
    deletes it iff the ID is in neither the queued nor the error sorted
    set of the queue; and removes the queue from the active status set iff
    the active sorted set is then empty.  Nothing else changes.  This holds
    in every state [b1] the reconciliation starts from, whatever the task
    body and other clients have written by then, and [b1] is the state the
    execution leaves: [_process_from_queue] returns the reconciled state. *)
Theorem C6_success_reconciliation queue task_id d b1 :
  let unique := truthy (dict_get_default "unique" (PBool false) d) in
  let b' :=
    reconcile_success queue task_id
      (dict_get_default "unique" (PBool false) d) b1 in
  (∀ r b serialized_task,
     (claim queue (now_claim r) b).1 = [task_id] →
     conn.get (_key ["task"; task_id]) (claim queue (now_claim r) b).2
       = Some serialized_task →
     serialized_task ≠ EmptyString →
     json_loads serialized_task = inr (PDict d) →
     _execute queue (PDict d) (fate r) (waits r)
       (claim queue (now_claim r) b).2 = inr (true, b1) →
     _process_from_queue queue r b = inr (Some task_id, b'))
  ∧ conn.zset (bucket Active queue) b' =
      delete task_id (conn.zset (bucket Active queue) b1)
  ∧ (∀ k, k ≠ bucket Active queue → conn.zset k b' = conn.zset k b1)
  ∧ (unique = false → conn.get (_key ["task"; task_id]) b' = None)
  ∧ (unique = true →
     member task_id (bucket Queued queue) b1
     ∨ member task_id (bucket Error queue) b1 →
     conn.get (_key ["task"; task_id]) b'
     = conn.get (_key ["task"; task_id]) b1)
  ∧ (unique = true →
     ¬ member task_id (bucket Queued queue) b1 →
     ¬ member task_id (bucket Error queue) b1 →
     conn.get (_key ["task"; task_id]) b' = None)
  ∧ (∀ k, k ≠ _key ["task"; task_id] → conn.get k b' = conn.get k b1)
  ∧ (queue ∈ conn.smembers (_key ["active"]) b' ↔
     queue ∈ conn.smembers (_key ["active"]) b1
     ∧ conn.zcard (bucket Active queue) b' ≠ 0%nat)
  ∧ (∀ q, q ≠ queue →
       q ∈ conn.smembers (_key ["active"]) b' ↔
       q ∈ conn.smembers (_key ["active"]) b1)
  ∧ (∀ k, k ≠ _key ["active"] → conn.smembers k b' = conn.smembers k b1)
  ∧ lists b' = lists b1
  ∧ published b' = published b1.
Proof.
  intros unique b'.
  split.
  { intros r b serialized_task Hids Hget Hne Hloads Hexec.
    by rewrite (_process_from_queue_executed _ _ _ _ _ _ _ _
                  Hids Hget Hne Hloads Hexec). }
  destruct (reconcile_success_effect queue task_id
              (dict_get_default "unique" (PBool false) d) b1)
    as (Hza & Hz & Hg & Hgo & Hact & Hsm & Hl & Hp).
  fold unique in Hg. fold b' in Hza, Hz, Hg, Hgo, Hact, Hsm, Hl, Hp.
  split; [done|]. split; [done|]. split; [|split; [|split]].
  - intros Hu. by rewrite Hg, Hu.
  - intros Hu Hin. rewrite Hg, Hu. simpl.
    destruct Hin as [Hin|Hin].
    + by rewrite (bool_decide_eq_true_2 _ Hin).
    + rewrite (bool_decide_eq_true_2 _ Hin). by rewrite orb_true_r.
  - intros Hu Hq He. rewrite Hg, Hu. simpl.
    by rewrite (bool_decide_eq_false_2 _ Hq), (bool_decide_eq_false_2 _ He).
  - split; [done|]. split; [|split; [|done]].
    + rewrite Hact. split; [intros [? Hn]|intros [? ?]]; split; try done.
      * intros Hc. apply Hn. by split.
      * intros [_ Hc]. done.
    + intros q Hq. rewrite Hact. split; [by intros [? _]|].
      intros ?. split; [done|]. by intros [? _].
Qed.

(** The child's run when the callable cannot be resolved and the import
    raises one of the three exceptions [_execute_forked] catches. *)
Lemma _execute_forked_unresolved env d name id e b :
  dict_get "func" d = Some name →
  dict_get "id" d = Some (PStr id) →
  _func_from_serialized_name env name = inl e →
  import_caught e = true →
  _execute_forked env (PDict d) b =
  (inr false,
   conn.rpush (_key ["task"; id; "executions"])
     (json_dumps false (PDict [("success", PBool false)])) b).
Proof.
  intros Hfunc Hid Himport Hcaught. unfold _execute_forked. simpl.
  rewrite Hfunc. simpl. rewrite Himport, Hcaught. simpl.
  rewrite Hid. done.
Qed.

(** C2, as amended.  When resolving the callable raises [ValueError],
    [ImportError] or [AttributeError], the executor reports a failure and
    the ID goes to the error sorted set of the queue; an execution record
    is appended to the executions of the task all the same, and it holds
    the field [success] alone, set to false. *)
Theorem C2_unresolved_callable_logged queue r b task_id serialized_task d
    name id env e :
  (claim queue (now_claim r) b).1 = [task_id] →
  conn.get (_key ["task"; task_id]) (claim queue (now_claim r) b).2
    = Some serialized_task →
  serialized_task ≠ EmptyString →
  json_loads serialized_task = inr (PDict d) →
  dict_get "func" d = Some name →
  dict_get "id" d = Some (PStr id) →
  fate r = ChildRuns env →
  Forall retried (waits r) →
  _func_from_serialized_name env name = inl e →
  import_caught e = true →
  ∃ b1 b',
    _execute queue (PDict d) (fate r) (waits r)
      (claim queue (now_claim r) b).2 = inr (false, b1)
    ∧ _process_from_queue queue r b = inr (Some task_id, b')
    ∧ conn.zscore (bucket Error queue) task_id b' = Some (now_failed r)
    ∧ conn.zscore (bucket Active queue) task_id b' = None
    ∧ conn.lrange (_key ["task"; id; "executions"]) b' =
        conn.lrange (_key ["task"; id; "executions"]) b
        ++ [json_dumps false (PDict [("success", PBool false)])].
Proof.
  intros Hids Hget Hne Hloads Hfunc Hid Hfate Hev Himport Hcaught.
  set (b0 := (claim queue (now_claim r) b).2) in *.
  set (b0' := conn.rpush (_key ["task"; id; "executions"])
                (json_dumps false (PDict [("success", PBool false)])) b0).
  destruct (wait_child_returns queue (PDict d) id (waits r)
              (wait_status (Exited 1)) b0' Hev)
    as (b1 & Hw & _ & _ & Hl & _).
  { simpl. by rewrite Hid. }
  assert (_execute queue (PDict d) (fate r) (waits r) b0 = inr (false, b1))
    as Hexec.
  { unfold _execute, run_child. rewrite Hfate.
    rewrite (_execute_forked_unresolved env d name id e b0
               Hfunc Hid Himport Hcaught).
    simpl negb. cbn iota. fold b0'. unfold supervise. rewrite Hw. done. }
  exists b1, (reconcile_failure queue task_id (now_failed r) b1).
  split; [done|]. split.
  { by rewrite (_process_from_queue_executed _ _ _ _ _ _ _ _
                  Hids Hget Hne Hloads Hexec). }
  destruct (reconcile_failure_effect queue task_id (now_failed r) b1)
    as (Hza & Hze & _ & _ & _ & _ & Hl' & _).
  split_and!.
  - unfold conn.zscore. rewrite Hze. apply lookup_insert_eq.
  - unfold conn.zscore. rewrite Hza. apply lookup_delete_eq.
  - unfold conn.lrange at 1. rewrite Hl', Hl. fold (conn.lrange
      (_key ["task"; id; "executions"]) b0'). unfold b0'.
    autorewrite with broker. rewrite decide_True by done.
    unfold conn.lrange, b0, claim.
    by destruct (zpoppush_frame (_key ["queued"; queue])
                   (_key ["active"; queue]) 1 None (now_claim r)
                   (Some (update_sets (_key ["queued"]) (_key ["active"])
                            queue)) b) as (_ & -> & _).
Qed.

(** What the reconciliation of a failure does.  The ID leaves the
    active sorted set of the queue and enters its error sorted set with
    the time of the failure; the queue leaves the active status set iff
    its active sorted set is then empty; records and execution logs are
    kept.  No status set other than the active one changes: the queue is
    not added to the error status set. *)
Lemma reconcile_failure_error_status_set queue task_id now b :
  let b' := reconcile_failure queue task_id now b in
  conn.zscore (bucket Active queue) task_id b' = None
  ∧ conn.zscore (bucket Error queue) task_id b' = Some now
  ∧ (queue ∈ conn.smembers (_key ["active"]) b' ↔
     queue ∈ conn.smembers (_key ["active"]) b
     ∧ conn.zcard (bucket Active queue) b' ≠ 0%nat)
  ∧ strings b' = strings b
  ∧ lists b' = lists b
  ∧ conn.smembers (_key ["error"]) b' = conn.smembers (_key ["error"]) b.
Proof.
  intros b'.
  destruct (reconcile_failure_effect queue task_id now b)
    as (Hza & Hze & _ & Hact & Hsm & Hs & Hl & _).
  fold b' in Hza, Hze, Hact, Hsm, Hs, Hl. split_and!; try done.
  - unfold conn.zscore. rewrite Hza. apply lookup_delete_eq.
  - unfold conn.zscore. rewrite Hze. apply lookup_insert_eq.
  - rewrite Hact. split; [intros [? Hn]|intros [? ?]]; split; try done.
    + intros Hc. apply Hn. by split.
    + by intros [_ Hc].
  - apply Hsm. keys.
Qed.

(** C9.  When the record of a claimed ID does not exist, the call returns
    the ID and the broker as the claim left it: nothing is executed,
    appended, deleted or reconciled, the ID stays in the active sorted set
    of the queue, and the loop of [_worker_run] keeps the queue in its
    queue set. *)
Theorem C9_orphan_id_left_active queue r b task_id :
  (claim queue (now_claim r) b).1 = [task_id] →
  conn.get (_key ["task"; task_id]) (claim queue (now_claim r) b).2 = None →
  ∃ b',
    _process_from_queue queue r b = inr (Some task_id, b')
    ∧ b' = (claim queue (now_claim r) b).2
    ∧ conn.zscore (bucket Active queue) task_id b' = Some (now_claim r)
    ∧ strings b' = strings b
    ∧ lists b' = lists b
    ∧ (∀ visits stop_requested queue_set,
         visit_queues ((queue, r, stop_requested) :: visits) queue_set b =
         if stop_requested then inr (queue_set, b', true)
         else visit_queues visits queue_set b').
Proof.
  intros Hids Hget. exists (claim queue (now_claim r) b).2.
  assert (_process_from_queue queue r b =
          inr (Some task_id, (claim queue (now_claim r) b).2)) as Hp.
  { unfold _process_from_queue.
    destruct (claim queue (now_claim r) b) as [ids b1]. simpl in *.
    subst ids. simpl. by rewrite Hget. }
  split; [done|]. split; [done|]. split; [|split; [|split]].
  - unfold conn.zscore, claim, bucket. simpl status_name.
    rewrite zpoppush_zset.
    unfold claim in Hids. rewrite zpoppush_ids in Hids. rewrite Hids.
    rewrite decide_True by (by left). by rewrite decide_True.
  - apply zpoppush_frame.
  - apply zpoppush_frame.
  - intros visits stop_requested queue_set. simpl. rewrite Hp. simpl.
    by destruct stop_requested.
Qed.

End worker.

(** ** At most one sorted set per task ID *)

Section exclusivity.
Context `{lib : PyLib}.

Lemma at_most_one_zset_bucket b : at_most_one_zset b → at_most_one_bucket b.
Proof.
  intros Hb id s1 q1 s2 q2 H1 H2. apply bucket_inj. by eapply Hb.
Qed.

Lemma at_most_one_zset_empty : at_most_one_zset empty_broker.
Proof.
  intros id k1 k2 [s Hs] _. unfold conn.zscore, conn.zset in Hs. simpl in Hs.
  rewrite lookup_empty in Hs. simpl in Hs. by rewrite lookup_empty in Hs.
Qed.

(** The scripted move keeps the IDs apart: a moved ID was in [src] alone
    and is in [dst] alone afterwards. *)
Lemma zpoppush_at_most_one src dst count max_score new_score on_success b :
  at_most_one_zset b →
  at_most_one_zset
    (scripts.zpoppush src dst count max_score new_score on_success b).2.
Proof.
  intros Hb id k1 k2 [s1 H1] [s2 H2]. unfold conn.zscore in H1, H2.
  rewrite zpoppush_zset in H1, H2.
  destruct (decide (id ∈ take count (scripts.zrangebyscore src max_score b)))
    as [Hin|Hin].
  - apply subseteq_take, elem_of_zrangebyscore in Hin as (s & Hs & _).
    assert (∀ k s', (if decide (k = dst) then Some new_score
                     else if decide (k = src) then None
                     else conn.zset k b !! id) = Some s' → k = dst) as Hdst.
    { intros k s' Hk. destruct (decide (k = dst)); [done|].
      destruct (decide (k = src)); [done|].
      exfalso. assert (k = src); [|done].
      apply (Hb id); [by exists s'|by exists s]. }
    by rewrite (Hdst _ _ H1), (Hdst _ _ H2).
  - apply (Hb id); [by exists s1|by exists s2].
Qed.

Lemma requeue_expired_at_most_one now b queue :
  at_most_one_zset b → at_most_one_zset (requeue_expired now b queue).
Proof.
  intros Hb. unfold requeue_expired.
  pose proof (zpoppush_at_most_one (_key ["active"; queue])
                (_key ["queued"; queue]) ACTIVE_TASK_EXPIRED_BATCH_SIZE
                (Some (now - ACTIVE_TASK_UPDATE_TIMEOUT)) now
                (Some (update_sets (_key ["active"]) (_key ["queued"]) queue))
                b Hb) as Hb'.
  destruct (scripts.zpoppush _ _ _ _ _ _ b) as [result b1]. simpl in Hb'.
  by destruct result.
Qed.

Lemma _worker_queue_expired_tasks_at_most_one now b :
  at_most_one_zset b → at_most_one_zset (_worker_queue_expired_tasks now b).
Proof.
  unfold _worker_queue_expired_tasks.
  generalize (elements (conn.smembers (_key ["active"]) b)) as queues.
  intros queues. revert b.
  induction queues as [|queue queues IH]; intros b Hb; simpl; [done|].
  by apply IH, requeue_expired_at_most_one.
Qed.

Lemma reconcile_success_at_most_one queue task_id unique b :
  at_most_one_zset b →
  at_most_one_zset (reconcile_success queue task_id unique b).
Proof.
  intros Hb.
  destruct (reconcile_success_effect queue task_id unique b)
    as (Hza & Hz & _).
  assert (∀ id k, member id k (reconcile_success queue task_id unique b) →
                  member id k b) as Hsub.
  { intros id k [s Hs]. unfold conn.zscore in Hs.
    destruct (decide (k = bucket Active queue)) as [->|Hk].
    - rewrite Hza in Hs. apply lookup_delete_Some in Hs as [_ Hs].
      by exists s.
    - rewrite (Hz k Hk) in Hs. by exists s. }
  intros id k1 k2 H1 H2. apply (Hb id); by apply Hsub.
Qed.

Lemma reconcile_failure_at_most_one queue task_id now b :
  exclusive (OpFailure queue task_id now) b →
  at_most_one_zset b →
  at_most_one_zset (reconcile_failure queue task_id now b).
Proof.
  intros Hex Hb. simpl in Hex.
  destruct (reconcile_failure_effect queue task_id now b)
    as (Hza & Hze & Hz & _).
  set (b' := reconcile_failure queue task_id now b) in *.
  assert (∀ k, member task_id k b' → k = bucket Error queue) as Hnew.
  { intros k [s Hs]. unfold conn.zscore in Hs.
    destruct (decide (k = bucket Error queue)) as [|He]; [done|].
    destruct (decide (k = bucket Active queue)) as [->|Ha].
    - rewrite Hza in Hs. by rewrite lookup_delete_eq in Hs.
    - rewrite (Hz k Ha He) in Hs.
      destruct (Hex k) as [?|?]; [by exists s|done..]. }
  assert (∀ id k, id ≠ task_id → member id k b' → member id k b) as Hold.
  { intros id k Hid [s Hs]. unfold conn.zscore in Hs. exists s.
    unfold conn.zscore.
    destruct (decide (k = bucket Error queue)) as [->|He].
    - rewrite Hze in Hs. by rewrite lookup_insert_ne in Hs.
    - destruct (decide (k = bucket Active queue)) as [->|Ha].
      + rewrite Hza in Hs. by rewrite lookup_delete_ne in Hs.
      + by rewrite (Hz k Ha He) in Hs. }
  intros id k1 k2 H1 H2. destruct (decide (id = task_id)) as [->|Hid].
  - by rewrite (Hnew _ H1), (Hnew _ H2).
  - apply (Hb id); by apply Hold.
Qed.

Lemma delay_inr_module func args kwargs queue hard_timeout unique urandom
    now b b' :
  delay func args kwargs queue hard_timeout unique urandom now b = inr b' →
  __module__ func ≠ "__main__".
Proof.
  intros Hd Hmain. unfold delay, _serialize_func_name in Hd.
  rewrite Hmain in Hd. discriminate.
Qed.

Lemma delay_at_most_one func args kwargs queue hard_timeout unique urandom
    now b b' :
  exclusive
    (OpDelay func args kwargs queue hard_timeout unique urandom now) b →
  delay func args kwargs queue hard_timeout unique urandom now b = inr b' →
  at_most_one_zset b →
  at_most_one_zset b'.
Proof.
  intros Hex Hd Hb. simpl in Hex.
  pose proof (delay_inr_module _ _ _ _ _ _ _ _ _ _ Hd) as Hm.
  destruct (delay_effect func args kwargs queue hard_timeout unique urandom
              now b Hm) as (b'' & Hd' & _ & _ & Hzq & Hz & _).
  rewrite Hd in Hd'. injection Hd' as <-.
  set (task_id := task_id_of (__module__ func +:+ "." +:+ __name__ func)
                    args kwargs (unique_of func unique) urandom) in *.
  set (kq := bucket Queued (queue_of func queue)) in *.
  assert (∀ k, member task_id k b' → k = kq) as Hnew.
  { intros k [s Hs]. destruct (decide (k = kq)) as [|Hk]; [done|].
    unfold conn.zscore in Hs. rewrite (Hz k Hk) in Hs.
    apply (Hex _ k (_serialize_func_name_ok func Hm)). by exists s. }
  assert (∀ id k, id ≠ task_id → member id k b' → member id k b) as Hold.
  { intros id k Hid [s Hs]. unfold conn.zscore in Hs. exists s.
    unfold conn.zscore. destruct (decide (k = kq)) as [->|Hk].
    - rewrite Hzq in Hs. by rewrite lookup_insert_ne in Hs.
    - by rewrite (Hz k Hk) in Hs. }
  intros id k1 k2 H1 H2. destruct (decide (id = task_id)) as [->|Hid].
  - by rewrite (Hnew _ H1), (Hnew _ H2).
  - apply (Hb id); by apply Hold.
Qed.

Lemma apply_op_at_most_one o b b' :
  at_most_one_zset b → exclusive o b → apply_op o b = inr b' →
  at_most_one_zset b'.
Proof.
  intros Hb Hex Hop.
  destruct o as [func args kwargs queue hard_timeout unique urandom now
                |queue now|queue task_id unique|queue task_id now|now];
    unfold apply_op, mret, res_ret in Hop.
  - by eapply delay_at_most_one.
  - assert ((claim queue now b).2 = b') as <- by congruence.
    exact (zpoppush_at_most_one _ _ _ _ _ _ _ Hb).
  - assert (reconcile_success queue task_id unique b = b') as <-
      by congruence.
    by apply reconcile_success_at_most_one.
  - assert (reconcile_failure queue task_id now b = b') as <- by congruence.
    by apply reconcile_failure_at_most_one.
  - assert (_worker_queue_expired_tasks now b = b') as <- by congruence.
    by apply _worker_queue_expired_tasks_at_most_one.
Qed.

(** C3, as amended.  Claim, reclaim and the reconciliation of a success keep
    every task ID in at most one sorted set; an enqueue does when its task
    ID is in no sorted set but the queued one of its queue, and the
    reconciliation of a failure when its task ID is in no sorted set but the
    active and the error one of its queue.  Hence in every broker state
    reached from the empty broker by an interleaving of such operations,
    each task ID is a member of at most one [<status>:<queue>] sorted
    set. *)
Theorem C3_at_most_one_bucket b :
  reachable_by exclusive b →
  at_most_one_bucket b
  ∧ ∀ o b',
      exclusive o b → apply_op o b = inr b' → at_most_one_bucket b'.
Proof.
  intros Hreach.
  assert (at_most_one_zset b) as Hb.
  { induction Hreach as [|b o b' _ IH Hex Hop].
    - apply at_most_one_zset_empty.
    - by eapply apply_op_at_most_one. }
  split; [by apply at_most_one_zset_bucket|].
  intros o b' Hex Hop. by eapply at_most_one_zset_bucket, apply_op_at_most_one.
Qed.

End exclusivity.

(** ** The reclaim of expired tasks *)

Section reclaim.
Context `{lib : PyLib}.

Lemma expired_ext now b1 b2 queue :
  conn.zset (_key ["active"; queue]) b1 = conn.zset (_key ["active"; queue]) b2 →
  expired now b1 queue = expired now b2 queue.
Proof.
  intros Hz. unfold expired, scripts.zrangebyscore. by rewrite Hz.
Qed.

(** One round of the loop. *)
Lemma requeue_expired_effect now b queue :
  let ids := expired now b queue in
  let b1 := requeue_expired now b queue in
  (∀ k id,
     conn.zset k b1 !! id =
     if decide (id ∈ ids) then
       if decide (k = _key ["queued"; queue]) then Some now
       else if decide (k = _key ["active"; queue]) then None
       else conn.zset k b !! id
     else conn.zset k b !! id)
  ∧ strings b1 = strings b
  ∧ lists b1 = lists b
  ∧ published b1 = published b ++ announced now b [queue]
  ∧ (∀ k q,
       q ∈ conn.smembers k b1 ↔
       if decide (q = queue ∧ ids ≠ []) then
         (k = _key ["queued"] ∨ q ∈ conn.smembers k b)
         ∧ ¬ (k = _key ["active"]
              ∧ conn.zcard (_key ["active"; queue]) b1 = 0%nat)
       else q ∈ conn.smembers k b).
Proof.
  intros ids b1.
  pose proof (zpoppush_ids (_key ["active"; queue]) (_key ["queued"; queue])
                ACTIVE_TASK_EXPIRED_BATCH_SIZE
                (Some (now - ACTIVE_TASK_UPDATE_TIMEOUT)) now
                (Some (update_sets (_key ["active"]) (_key ["queued"]) queue))
                b) as Hids.
  pose proof (zpoppush_zset (_key ["active"; queue]) (_key ["queued"; queue])
                ACTIVE_TASK_EXPIRED_BATCH_SIZE
                (Some (now - ACTIVE_TASK_UPDATE_TIMEOUT)) now
                (Some (update_sets (_key ["active"]) (_key ["queued"]) queue))
                b) as Hz.
  destruct (zpoppush_frame (_key ["active"; queue]) (_key ["queued"; queue])
              ACTIVE_TASK_EXPIRED_BATCH_SIZE
              (Some (now - ACTIVE_TASK_UPDATE_TIMEOUT)) now
              (Some (update_sets (_key ["active"]) (_key ["queued"]) queue))
              b) as (Hs & Hl & Hp).
  pose proof (zpoppush_sets_nil (_key ["active"; queue])
                (_key ["queued"; queue]) ACTIVE_TASK_EXPIRED_BATCH_SIZE
                (Some (now - ACTIVE_TASK_UPDATE_TIMEOUT)) now
                (Some (update_sets (_key ["active"]) (_key ["queued"]) queue))
                b) as Hnil.
  pose proof (λ k, zpoppush_smembers (_key ["active"; queue])
                (_key ["queued"; queue]) ACTIVE_TASK_EXPIRED_BATCH_SIZE
                (Some (now - ACTIVE_TASK_UPDATE_TIMEOUT)) now
                (_key ["active"]) (_key ["queued"]) queue b k) as Hsm.
  fold (expired now b queue) in Hids, Hz, Hnil, Hsm. fold ids in Hids, Hz, Hnil, Hsm.
  unfold b1, requeue_expired. clear b1.
  destruct (scripts.zpoppush _ _ _ _ _ _ b) as [result b0].
  simpl in Hids, Hz, Hs, Hl, Hp, Hnil, Hsm. subst result.
  unfold announced. simpl. fold ids. rewrite app_nil_r.
  destruct ids as [|x ids'].
  - rewrite Hnil by done. split_and!; try done.
    + by rewrite app_nil_r.
    + intros k q. rewrite decide_False; [done|]. by intros [_ ?].
  - split_and!; try done.
    + simpl. by rewrite Hp.
    + intros k q. autorewrite with broker. rewrite Hsm by done.
      unfold conn.zcard. autorewrite with broker.
      assert (_key ["queued"] ≠ _key ["active"]) as Hqa by keys.
      repeat case_decide; destruct_and?; subst;
        rewrite ?elem_of_difference, ?elem_of_union, ?elem_of_singleton;
        intuition (try congruence).
Qed.

Lemma announced_ext now b1 b2 queues :
  (∀ queue, queue ∈ queues → expired now b1 queue = expired now b2 queue) →
  announced now b1 queues = announced now b2 queues.
Proof.
  induction queues as [|queue queues IH]; intros Hext; [done|].
  unfold announced. simpl. rewrite (Hext queue) by left.
  f_equal. apply IH. intros q Hq. apply Hext. by right.
Qed.

(** The whole loop, over queues without repetition: every round acts on
    the two sorted sets and on the status-set membership of its queue
    alone, so the rounds do not interfere. *)
Lemma reclaim_fold now queues :
  NoDup queues →
  ∀ b,
    let b' := foldl (requeue_expired now) b queues in
    (∀ queue, queue ∈ queues → ∀ id,
       conn.zset (_key ["active"; queue]) b' !! id =
       if decide (id ∈ expired now b queue) then None
       else conn.zset (_key ["active"; queue]) b !! id)
    ∧ (∀ queue, queue ∈ queues → ∀ id,
         conn.zset (_key ["queued"; queue]) b' !! id =
         if decide (id ∈ expired now b queue) then Some now
         else conn.zset (_key ["queued"; queue]) b !! id)
    ∧ (∀ k,
         (∀ queue, queue ∈ queues →
            k ≠ _key ["active"; queue] ∧ k ≠ _key ["queued"; queue]) →
         conn.zset k b' = conn.zset k b)
    ∧ strings b' = strings b
    ∧ lists b' = lists b
    ∧ published b' = published b ++ announced now b queues
    ∧ (∀ queue, queue ∈ queues → ∀ k,
         queue ∈ conn.smembers k b' ↔
         if decide (expired now b queue ≠ []) then
           (k = _key ["queued"] ∨ queue ∈ conn.smembers k b)
           ∧ ¬ (k = _key ["active"]
                ∧ conn.zcard (_key ["active"; queue]) b' = 0%nat)
         else queue ∈ conn.smembers k b)
    ∧ (∀ q, q ∉ queues → ∀ k,
         q ∈ conn.smembers k b' ↔ q ∈ conn.smembers k b).
Proof.
  induction 1 as [|queue0 queues Hnotin Hnodup IH]; intros b.
  { simpl. split_and!; try done.
    - by intros ? ?%elem_of_nil.
    - by intros ? ?%elem_of_nil.
    - unfold announced. simpl. by rewrite app_nil_r.
    - by intros ? ?%elem_of_nil. }
  cbn [foldl]. set (b1 := requeue_expired now b queue0).
  destruct (requeue_expired_effect now b queue0)
    as (Hz0 & Hs0 & Hl0 & Hp0 & Hm0).
  fold b1 in Hz0, Hs0, Hl0, Hp0, Hm0.
  destruct (IH b1) as (Hza & Hzq & Hzo & Hs & Hl & Hp & Hm & Hmo).
  set (b' := foldl (requeue_expired now) b1 queues) in *.
  assert (∀ k, k ≠ _key ["active"; queue0] → k ≠ _key ["queued"; queue0] →
               conn.zset k b1 = conn.zset k b) as Hframe.
  { intros k Ha Hq. apply map_eq. intros id. rewrite Hz0.
    case_decide; [|done]. rewrite decide_False by done.
    by rewrite decide_False. }
  assert (∀ queue, queue ≠ queue0 →
            conn.zset (_key ["active"; queue]) b1
            = conn.zset (_key ["active"; queue]) b) as Hfa.
  { intros queue Hne. apply Hframe.
    - by intros ?%active_inj.
    - apply active_neq_queued. }
  assert (∀ queue, queue ≠ queue0 →
            conn.zset (_key ["queued"; queue]) b1
            = conn.zset (_key ["queued"; queue]) b) as Hfq.
  { intros queue Hne. apply Hframe.
    - apply not_eq_sym, active_neq_queued.
    - by intros ?%queued_inj. }
  assert (∀ queue, queue ≠ queue0 →
            expired now b1 queue = expired now b queue) as Hexp.
  { intros queue Hne. by apply expired_ext, Hfa. }
  assert (∀ queue, queue ∈ queues → queue ≠ queue0) as Hne.
  { intros queue Hin ->. done. }
  assert (conn.zset (_key ["active"; queue0]) b'
          = conn.zset (_key ["active"; queue0]) b1) as Hkeep_a.
  { apply Hzo. intros queue Hin. split.
    - intros ?%active_inj. by apply (Hne queue).
    - apply active_neq_queued. }
  assert (conn.zset (_key ["queued"; queue0]) b'
          = conn.zset (_key ["queued"; queue0]) b1) as Hkeep_q.
  { apply Hzo. intros queue Hin. split.
    - apply not_eq_sym, active_neq_queued.
    - intros ?%queued_inj. by apply (Hne queue). }
  split_and!.
  - intros queue [->|Hin]%elem_of_cons id.
    + rewrite Hkeep_a, Hz0. case_decide; [|done].
      rewrite decide_False by apply active_neq_queued.
      by rewrite decide_True.
    + rewrite (Hza queue Hin), (Hexp queue), (Hfa queue) by by apply Hne.
      done.
  - intros queue [->|Hin]%elem_of_cons id.
    + rewrite Hkeep_q, Hz0. case_decide; [|done]. by rewrite decide_True.
    + rewrite (Hzq queue Hin), (Hexp queue), (Hfq queue) by by apply Hne.
      done.
  - intros k Hk. rewrite Hzo.
    + apply Hframe; apply (Hk queue0); by left.
    + intros queue Hin. apply Hk. by right.
  - by rewrite Hs.
  - by rewrite Hl.
  - rewrite Hp, Hp0, <- app_assoc. f_equal.
    rewrite (announced_ext now b1 b queues).
    2:{ intros queue Hin. by apply Hexp, Hne. }
    unfold announced. simpl. by rewrite app_nil_r.
  - intros queue [->|Hin]%elem_of_cons k.
    + rewrite (Hmo queue0 Hnotin k), (Hm0 k queue0).
      unfold conn.zcard. rewrite Hkeep_a.
      repeat case_decide; destruct_and?; try done; tauto.
    + rewrite (Hm queue Hin k), (Hexp queue) by by apply Hne.
      assert (∀ k, queue ∈ conn.smembers k b1 ↔ queue ∈ conn.smembers k b)
        as Hsame.
      { intros k'. rewrite (Hm0 k' queue). rewrite decide_False; [done|].
        intros [? _]. by apply (Hne queue). }
      case_decide; [|apply Hsame]. by rewrite Hsame.
  - intros q Hq k. rewrite (Hmo q) by (intros ?; apply Hq; by right).
    rewrite (Hm0 k q). rewrite decide_False; [done|].
    intros [-> _]. apply Hq. by left.
Qed.

Lemma elem_of_announced now b queues channel queue :
  (channel, queue) ∈ announced now b queues ↔
  channel = _key ["activity"] ∧ queue ∈ queues ∧ expired now b queue ≠ [].
Proof.
  induction queues as [|q queues IH].
  { unfold announced. simpl. rewrite elem_of_nil.
    split; [done|]. by intros (_ & ?%elem_of_nil & _). }
  change (announced now b (q :: queues))
    with (match expired now b q with
          | [] => []
          | _ => [(_key ["activity"], q)]
          end ++ announced now b queues).
  rewrite elem_of_app, IH, elem_of_cons.
  destruct (expired now b q) as [|x ids] eqn:Hq.
  - rewrite elem_of_nil. split.
    + intros [[]|(? & ? & ?)]. split_and!; [done|by right|done].
    + intros (? & [->|?] & ?); [by rewrite Hq in *|]. by right.
  - rewrite list_elem_of_singleton. split.
    + intros [[= -> ->]|(? & ? & ?)].
      * split_and!; [done|by left|by rewrite Hq].
      * split_and!; [done|by right|done].
    + intros (-> & [->|?] & ?); [by left|]. by right.
Qed.

(** C8.  The reclaim at time [now] handles every queue of the active status
    set.  From the active sorted set of the queue it takes IDs whose score
    is at most [now] minus the update timeout, at most as many as the batch
    size, and all of them when they are fewer; each is removed from the
    active sorted set and inserted into the queued one with score [now], and
    no other ID of the queue is touched.  When at least one ID moved, the
    queue is in the queued status set and stays in the active status set iff
    its active sorted set is not empty; when none moved, the status sets
    keep the queue as it was.  The queue is published on the activity
    channel iff at least one of its IDs moved, and nothing else is
    published. *)
Theorem C8_expired_tasks_requeued now b :
  let b' := _worker_queue_expired_tasks now b in
  let horizon := now - ACTIVE_TASK_UPDATE_TIMEOUT in
  (∀ queue,
     queue ∈ conn.smembers (_key ["active"]) b →
     let moved := expired now b queue in
     (length moved ≤ ACTIVE_TASK_EXPIRED_BATCH_SIZE)%nat
     ∧ (∀ id, id ∈ moved →
          ∃ score, conn.zscore (bucket Active queue) id b = Some score
                   ∧ score <= horizon)
     ∧ ((length moved < ACTIVE_TASK_EXPIRED_BATCH_SIZE)%nat →
        ∀ id score,
          conn.zscore (bucket Active queue) id b = Some score →
          score <= horizon → id ∈ moved)
     ∧ (∀ id, id ∈ moved →
          conn.zscore (bucket Active queue) id b' = None
          ∧ conn.zscore (bucket Queued queue) id b' = Some now)
     ∧ (∀ id, id ∉ moved →
          conn.zscore (bucket Active queue) id b'
            = conn.zscore (bucket Active queue) id b
          ∧ conn.zscore (bucket Queued queue) id b'
            = conn.zscore (bucket Queued queue) id b)
     ∧ (moved ≠ [] →
        queue ∈ conn.smembers (_key ["queued"]) b'
        ∧ (queue ∈ conn.smembers (_key ["active"]) b' ↔
           conn.zcard (bucket Active queue) b' ≠ 0%nat))
     ∧ (moved = [] →
        queue ∈ conn.smembers (_key ["active"]) b'
        ∧ (queue ∈ conn.smembers (_key ["queued"]) b' ↔
           queue ∈ conn.smembers (_key ["queued"]) b)))
  ∧ (∃ messages,
       published b' = published b ++ messages
       ∧ ∀ channel queue,
           (channel, queue) ∈ messages ↔
           channel = _key ["activity"]
           ∧ queue ∈ conn.smembers (_key ["active"]) b
           ∧ expired now b queue ≠ [])
  ∧ strings b' = strings b
  ∧ lists b' = lists b.
Proof.
  intros b' horizon. unfold _worker_queue_expired_tasks in b'.
  destruct (reclaim_fold now (elements (conn.smembers (_key ["active"]) b))
              (NoDup_elements _) b)
    as (Hza & Hzq & _ & Hs & Hl & Hp & Hm & _).
  fold b' in Hza, Hzq, Hs, Hl, Hp, Hm.
  split_and!; [|exists (announced now b
                          (elements (conn.smembers (_key ["active"]) b)))
               |done|done].
  - intros queue Hin moved.
    assert (queue ∈ elements (conn.smembers (_key ["active"]) b)) as Hin'
      by by apply elem_of_elements.
    specialize (Hza queue Hin'). specialize (Hzq queue Hin').
    specialize (Hm queue Hin'). fold moved in Hza, Hzq, Hm.
    unfold bucket, conn.zscore. simpl status_name. split_and!.
    + unfold moved, expired. rewrite length_take. lia.
    + intros id Hid. unfold moved, expired in Hid.
      apply subseteq_take, elem_of_zrangebyscore in Hid as (score & ? & ?).
      by exists score.
    + intros Hlt id score Hscore Hle. unfold moved, expired in *.
      rewrite take_ge.
      * apply elem_of_zrangebyscore. by exists score.
      * rewrite length_take in Hlt. lia.
    + intros id Hid. rewrite Hza, Hzq. by rewrite !decide_True.
    + intros id Hid. rewrite Hza, Hzq. by rewrite !decide_False.
    + intros Hne. split.
      * apply Hm. rewrite decide_True by done. split; [by left|].
        intros [Hk _]. by key_eq Hk.
      * rewrite Hm. rewrite decide_True by done. unfold conn.zcard.
        split; [intros [_ Hn] Hc; by apply Hn|].
        intros Hc. split; [by right|]. by intros [_ ?].
    + intros Hnil. split.
      * apply Hm. rewrite decide_False by (by intros ?). done.
      * rewrite Hm. by rewrite decide_False by (by intros ?).
  - split; [done|]. intros channel queue.
    rewrite elem_of_announced. by rewrite elem_of_elements.
Qed.

End reclaim.

(** * Further properties of the program *)

(** ** Names, IDs and keys *)

Lemma rsplit_dot_dotless name :
  Forall (λ c, c ≠ dot) (chars name) → rsplit_dot name = None.
Proof.
  induction name as [|c rest IH]; intros Hall; [done|].
  simpl in Hall. apply Forall_cons in Hall as [Hc Hrest]. simpl.
  rewrite (IH Hrest). fold dot.
  destruct (Ascii.eqb c dot) eqn:Heq; [|done].
  by apply Ascii.eqb_eq in Heq.
Qed.

Lemma append_nil_l (s : string) : EmptyString +:+ s = s.
Proof. reflexivity. Qed.

Lemma append_cons_l c (s t : string) : String c s +:+ t = String c (s +:+ t).
Proof. reflexivity. Qed.

Lemma rsplit_dot_last module_name attribute :
  Forall (λ c, c ≠ dot) (chars attribute) →
  rsplit_dot (module_name +:+ "." +:+ attribute)
  = Some (module_name, attribute).
Proof.
  intros Hall. induction module_name as [|c rest IH].
  - rewrite append_nil_l, append_cons_l, append_nil_l.
    cbn [rsplit_dot]. by rewrite (rsplit_dot_dotless _ Hall).
  - rewrite append_cons_l. cbn [rsplit_dot]. by rewrite IH.
Qed.

(** The name [delay] writes to the record leads the worker back to the
    function: for a function outside [__main__] whose own name has no dot,
    the serialized name is split at its last dot, whatever dots the module
    path has, and resolving it imports that module and reads that
    attribute.  A function of [__main__] has no serialized name. *)
Theorem serialized_name_resolves func env :
  Forall (λ c, c ≠ dot) (chars (__name__ func)) →
  (__module__ func = "__main__" →
   _serialize_func_name func = inl ValueError)
  ∧ (__module__ func ≠ "__main__" →
     ∃ name,
       _serialize_func_name func = inr name
       ∧ _func_from_serialized_name env (PStr name) =
         match import_module env (__module__ func) with
         | inl e => inl e
         | inr module =>
             match module (__name__ func) with
             | Some f => inr f
             | None => inl AttributeError
             end
         end).
Proof.
  intros Hname. split.
  - intros Hmain. unfold _serialize_func_name. by rewrite Hmain.
  - intros Hmain. exists (__module__ func +:+ "." +:+ __name__ func). split.
    + unfold _serialize_func_name. apply String.eqb_neq in Hmain.
      by rewrite Hmain.
    + cbn [_func_from_serialized_name]. unfold import_attribute.
      rewrite (rsplit_dot_last _ _ Hname).
      by destruct (import_module env (__module__ func)).
Qed.

Lemma chars_app (s t : string) : chars (s +:+ t) = chars s ++ chars t.
Proof.
  induction s as [|c s IH]; [done|].
  rewrite append_cons_l. simpl. by rewrite IH.
Qed.

Lemma length_chars (s : string) : length (chars s) = String.length s.
Proof. induction s as [|c s IH]; simpl; by rewrite ?IH. Qed.

Lemma length_read n stream :
  (n ≤ String.length stream)%nat → String.length (read n stream) = n.
Proof.
  unfold read. revert stream.
  induction n as [|n IH]; intros stream Hlen.
  - by destruct stream.
  - destruct stream as [|c stream]; simpl in *; [lia|].
    rewrite IH; [done|lia].
Qed.

Lemma length_hex_encode s :
  String.length (hex_encode s) = (2 * String.length s)%nat.
Proof. induction s as [|c s IH]; simpl; [done|]. rewrite IH. lia. Qed.

Lemma hex_digit_code n :
  (n < 16)%N →
  Ascii.N_of_ascii (hex_digit n) = (if (n <? 10)%N then 48 + n else 87 + n)%N.
Proof.
  intros Hn. unfold hex_digit.
  destruct (n <? 10)%N; apply Ascii.N_ascii_embedding; lia.
Qed.

Lemma hex_digit_is_hex n : (n < 16)%N → is_hex (hex_digit n).
Proof.
  intros Hn. unfold is_hex. rewrite (hex_digit_code n Hn).
  destruct (n <? 10)%N eqn:Hlt.
  - apply N.ltb_lt in Hlt. left. lia.
  - apply N.ltb_ge in Hlt. right. lia.
Qed.

Lemma hex_digit_inj n m :
  (n < 16)%N → (m < 16)%N → hex_digit n = hex_digit m → n = m.
Proof.
  intros Hn Hm Heq. apply (f_equal Ascii.N_of_ascii) in Heq.
  rewrite (hex_digit_code n Hn), (hex_digit_code m Hm) in Heq.
  destruct (n <? 10)%N eqn:Hn10, (m <? 10)%N eqn:Hm10;
    rewrite ?N.ltb_lt, ?N.ltb_ge in *; lia.
Qed.

Lemma byte_nibbles c :
  (Ascii.N_of_ascii c / 16 < 16)%N ∧ (Ascii.N_of_ascii c mod 16 < 16)%N.
Proof.
  pose proof (Ascii.N_ascii_bounded c) as Hb. split.
  - apply N.Div0.div_lt_upper_bound. lia.
  - apply N.mod_lt. lia.
Qed.

Lemma hex_encode_is_hex s : Forall is_hex (chars (hex_encode s)).
Proof.
  induction s as [|c s IH]; simpl; [constructor|].
  destruct (byte_nibbles c) as [Hhi Hlo].
  apply Forall_cons. split; [by apply hex_digit_is_hex|].
  apply Forall_cons. split; [by apply hex_digit_is_hex|done].
Qed.

Lemma hex_encode_inj s1 s2 : hex_encode s1 = hex_encode s2 → s1 = s2.
Proof.
  revert s2. induction s1 as [|c1 s1 IH]; intros [|c2 s2] Heq;
    simpl in Heq; try done.
  injection Heq as Hhi Hlo Hrest.
  destruct (byte_nibbles c1) as [? ?], (byte_nibbles c2) as [? ?].
  apply hex_digit_inj in Hhi; [|done..].
  apply hex_digit_inj in Hlo; [|done..].
  f_equal; [|by apply IH].
  rewrite <- (Ascii.ascii_N_embedding c1), <- (Ascii.ascii_N_embedding c2).
  f_equal.
  rewrite (N.div_mod (Ascii.N_of_ascii c1) 16) by lia.
  rewrite (N.div_mod (Ascii.N_of_ascii c2) 16) by lia.
  by rewrite Hhi, Hlo.
Qed.

(** A random task ID is 64 lower-case hex digits when the random source
    yields its 32 bytes, and two random IDs are equal only when these bytes
    are. *)
Theorem gen_id_hex urandom :
  (32 ≤ String.length urandom)%nat →
  String.length (_gen_id urandom) = 64%nat
  ∧ Forall is_hex (chars (_gen_id urandom))
  ∧ ∀ urandom',
      _gen_id urandom = _gen_id urandom' ↔
      read 32 urandom = read 32 urandom'.
Proof.
  intros Hlen. unfold _gen_id. split_and!.
  - by rewrite length_hex_encode, length_read.
  - apply hex_encode_is_hex.
  - intros urandom'. split; [apply hex_encode_inj|by intros ->].
Qed.

Lemma is_hex_not_colon c : is_hex c → c ≠ colon.
Proof. intros Hc ->. unfold is_hex in Hc. vm_compute in Hc. 
  destruct Hc as [[H1 H2]|[H1 H2]]; [by apply H2|by apply H1].
Qed.

(** The keys of the four kinds of broker data never coincide: a status set,
    a sorted set of a status and a queue, a task record and a list of
    executions have different keys, whatever the queue names and the IDs,
    for the last two as long as the ID of the record has no colon, which
    holds for the hex IDs the program generates. *)
Theorem key_layout_disjoint s s' queue id id' :
  _key [status_name s'] ≠ bucket s queue
  ∧ _key [status_name s'] ≠ _key ["task"; id]
  ∧ _key [status_name s'] ≠ _key ["task"; id'; "executions"]
  ∧ bucket s queue ≠ _key ["task"; id]
  ∧ bucket s queue ≠ _key ["task"; id'; "executions"]
  ∧ (Forall (λ c, c ≠ colon) (chars id) →
     _key ["task"; id] ≠ _key ["task"; id'; "executions"])
  ∧ (∀ urandom,
       _key ["task"; _gen_id urandom]
       ≠ _key ["task"; id'; "executions"]).
Proof.
  assert (∀ id0, Forall (λ c, c ≠ colon) (chars id0) →
            _key ["task"; id0] ≠ _key ["task"; id'; "executions"]) as Hrec.
  { intros id0 Hid Heq. cbn in Heq. simplify_eq.
    rewrite chars_app in Hid. apply Forall_app in Hid as [_ Hid].
    rewrite append_cons_l in Hid. simpl in Hid.
    apply Forall_cons in Hid as [Hc _]. by apply Hc. }
  split_and!.
  - destruct s, s'; keys.
  - destruct s'; keys.
  - destruct s'; keys.
  - destruct s; keys.
  - destruct s; keys.
  - apply Hrec.
  - intros urandom. apply Hrec. unfold _gen_id.
    eapply Forall_impl; [apply hex_encode_is_hex|].
    intros c. apply is_hex_not_colon.
Qed.

(** ** Enqueueing decorated functions *)

Section decorated.
Context `{lib : PyLib}.

(** Where and under which ID [delay] enqueues a function decorated with
    [task]: the queue given to [delay] goes before the queue of the
    decorator, which goes before the queue the function had, which goes
    before the default queue; the [unique] flag given to [delay], also a
    false one, goes before the flag of the decorator.  A unique task gets
    the digest as its ID, any other a random ID. *)
Theorem delay_decorated f decorator_queue decorator_timeout decorator_unique
    args kwargs queue hard_timeout unique urandom now b :
  __module__ f ≠ "__main__" →
  let g := task decorator_queue decorator_timeout decorator_unique f in
  let q :=
    match queue, decorator_queue with
    | Some q, _ => q
    | None, Some q =>
        if String.eqb q EmptyString
        then default DEFAULT_QUEUE (_task_queue f)
        else q
    | None, None => default DEFAULT_QUEUE (_task_queue f)
    end in
  let is_unique :=
    match unique with
    | PNone =>
        truthy decorator_unique
        || truthy (getattr_default (_task_unique f) (PBool false))
    | _ => truthy unique
    end in
  let name := __module__ f +:+ "." +:+ __name__ f in
  let task_id :=
    if is_unique then _gen_unique_id name args kwargs else _gen_id urandom in
  ∃ b',
    delay g args kwargs queue hard_timeout unique urandom now b = inr b'
    ∧ conn.zscore (bucket Queued q) task_id b' = Some now
    ∧ q ∈ conn.smembers (_key ["queued"]) b'
    ∧ published b' = published b ++ [(_key ["activity"], q)]
    ∧ ∃ d,
        conn.get (_key ["task"; task_id]) b'
          = Some (json_dumps false (PDict d))
        ∧ dict_get "func" d = Some (PStr name)
        ∧ dict_get "unique" d
          = (if is_unique then Some (PBool true) else None).
Proof.
  intros Hmain g q is_unique name task_id.
  assert (__module__ g = __module__ f ∧ __name__ g = __name__ f) as [Hgm Hgn].
  { unfold g, task. destruct (truthy decorator_timeout),
      decorator_queue as [dq|], (truthy decorator_unique);
      try destruct (String.eqb dq EmptyString); done. }
  assert (queue_of g queue = q) as Hq.
  { unfold q, queue_of, g, task. destruct queue as [q0|]; [done|].
    destruct (truthy decorator_timeout), decorator_queue as [dq|],
      (truthy decorator_unique);
      try destruct (String.eqb dq EmptyString); done. }
  assert (truthy (unique_of g unique) = is_unique) as Hu.
  { unfold is_unique, unique_of, g, task.
    destruct unique; try done.
    destruct (truthy decorator_timeout), decorator_queue as [dq|],
      (truthy decorator_unique);
      try destruct (String.eqb dq EmptyString); done. }
  destruct (delay_effect g args kwargs queue hard_timeout unique urandom now b)
    as (b' & Hd & Hr & _ & Hzq & _ & Hsm & _ & _ & Hp).
  { by rewrite Hgm. }
  rewrite Hq, Hgm, Hgn in *. unfold task_id_of in *. rewrite Hu in *.
  fold name in Hr, Hzq. fold task_id in Hr, Hzq.
  exists b'. split_and!; try done.
  - unfold conn.zscore. rewrite Hzq. apply lookup_insert_eq.
  - rewrite Hsm. apply elem_of_union_l. by apply elem_of_singleton.
  - eexists. split; [exact Hr|]. unfold task_record. rewrite Hu. split.
    + by destruct is_unique, (truthy args), (truthy kwargs),
        (truthy hard_timeout).
    + by destruct is_unique, (truthy args), (truthy kwargs),
        (truthy hard_timeout).
Qed.

End decorated.

(** ** The parent's wait *)

Section parent_wait.
Context `{lib : PyLib}.

Lemma wait_child_heartbeats queue task id events return_code b :
  Forall retried events →
  py_getitem task "id" = inr (PStr id) →
  ∃ b',
    wait_child queue task events return_code b = inr (return_code, b')
    ∧ conn.zset (_key ["active"; queue]) b' =
        match last_timer events with
        | Some now => <[id := now]> (conn.zset (_key ["active"; queue]) b)
        | None => conn.zset (_key ["active"; queue]) b
        end
    ∧ (∀ k, k ≠ _key ["active"; queue] → conn.zset k b' = conn.zset k b)
    ∧ sets b' = sets b ∧ strings b' = strings b
    ∧ lists b' = lists b ∧ published b' = published b.
Proof.
  intros Hev Hid. revert b.
  induction Hev as [|e events He _ IH]; intros b.
  { exists b. by split_and!. }
  destruct e as [now|errno].
  - destruct (IH (_heartbeat queue id now b))
      as (b' & Hw & Hz & Hzo & Hs & Hst & Hl & Hp).
    exists b'. split_and!; try done.
    + cbn [wait_child]. rewrite Hid. exact Hw.
    + rewrite Hz. unfold _heartbeat. autorewrite with broker.
      rewrite decide_True by done. cbn [last_timer].
      destruct (last_timer events); [|done]. by rewrite insert_insert_eq.
    + intros k Hk. rewrite (Hzo k Hk). unfold _heartbeat.
      autorewrite with broker. by rewrite decide_False.
  - simpl in He. subst errno.
    destruct (IH b) as (b' & Hw & Hrest). exists b'. split; [|done].
    cbn [wait_child]. exact Hw.
Qed.

(** While the parent waits for the child, every expiry of the timer sets the
    score of the task in the active sorted set of its queue to the clock
    reading of that moment: when the wait ends the score is the reading of
    the last expiry, and is untouched when the timer never expired.
    Interrupted waits are retried without a trace, and nothing else in the
    broker changes. *)
Theorem heartbeat_rescoring queue task id events t b :
  Forall retried events →
  py_getitem task "id" = inr (PStr id) →
  ∃ status b',
    supervise queue task events t b = inr (status, b')
    ∧ conn.zscore (bucket Active queue) id b' =
        match last_timer events with
        | Some now => Some now
        | None => conn.zscore (bucket Active queue) id b
        end
    ∧ (∀ id', id' ≠ id →
         conn.zscore (bucket Active queue) id' b'
         = conn.zscore (bucket Active queue) id' b)
    ∧ (∀ k, k ≠ bucket Active queue → conn.zset k b' = conn.zset k b)
    ∧ sets b' = sets b ∧ strings b' = strings b
    ∧ lists b' = lists b ∧ published b' = published b.
Proof.
  intros Hev Hid.
  destruct (wait_child_heartbeats queue task id events (wait_status t) b
              Hev Hid) as (b' & Hw & Hz & Hzo & Hrest).
  exists (wait_status t =? 0), b'. split_and!; try apply Hrest; try done.
  - unfold supervise. by rewrite Hw.
  - unfold conn.zscore, bucket. simpl status_name. rewrite Hz.
    destruct (last_timer events); [|done]. apply lookup_insert_eq.
  - intros id' Hne. unfold conn.zscore, bucket. simpl status_name.
    rewrite Hz. destruct (last_timer events); [|done].
    by apply lookup_insert_ne.
Qed.

(** An error of [waitpid] other than an interrupted call is not handled:
    after any number of timer expiries and interrupted calls, the first such
    error leaves [_execute] as the exception [OSError] with its number,
    whatever would have followed. *)
Theorem waitpid_error_propagates queue task id before errno after t b :
  Forall retried before →
  errno ≠ EINTR →
  py_getitem task "id" = inr (PStr id) →
  supervise queue task (before ++ WaitOSError errno :: after) t b
    = inl (OSError errno)
  ∧ ∀ child b0,
      run_child child task b0 = (t, b) →
      _execute queue task child (before ++ WaitOSError errno :: after) b0
      = inl (OSError errno).
Proof.
  intros Hev Hne Hid.
  assert (∀ return_code b,
            wait_child queue task (before ++ WaitOSError errno :: after)
              return_code b = inl (OSError errno)) as Hw.
  { intros return_code. induction Hev as [|e events He _ IH]; intros b1.
    - cbn [app wait_child]. apply Z.eqb_neq in Hne. by rewrite Hne.
    - destruct e as [now|errno']; cbn [app wait_child].
      + rewrite Hid. apply IH.
      + simpl in He. subst errno'. simpl. apply IH. }
  assert (supervise queue task (before ++ WaitOSError errno :: after) t b
          = inl (OSError errno)) as Hs.
  { unfold supervise. by rewrite Hw. }
  split; [done|]. intros child b0 Hchild. unfold _execute. by rewrite Hchild.
Qed.

End parent_wait.

(** ** The executor and the pass over a queue *)

Lemma dict_get_set_eq k v d : dict_get k (dict_set k v d) = Some v.
Proof.
  induction d as [|[k' v'] d IH]; simpl.
  - by rewrite String.eqb_refl.
  - destruct (String.eqb k k') eqn:Hk; simpl.
    + by rewrite String.eqb_refl.
    + by rewrite Hk.
Qed.

Lemma zrangebyscore_empty k max_score b :
  conn.zset k b = ∅ → scripts.zrangebyscore k max_score b = [].
Proof.
  intros Hz. unfold scripts.zrangebyscore. rewrite Hz, map_to_list_empty.
  reflexivity.
Qed.

Lemma zrangebyscore_nil_unbounded k b :
  scripts.zrangebyscore k None b = [] → conn.zset k b = ∅.
Proof.
  intros Hnil. apply map_empty. intros id.
  destruct (conn.zset k b !! id) as [s|] eqn:Hs; [|done].
  assert (id ∈ scripts.zrangebyscore k None b) as Hin.
  { apply elem_of_zrangebyscore. by exists s. }
  rewrite Hnil in Hin. by apply elem_of_nil in Hin.
Qed.

Section executor_more.
Context `{lib : PyLib}.

(** Only failed executions are logged.  Apart from what the task body
    itself writes, [_execute_forked] writes nothing when it returns success,
    and when it returns failure it appends exactly one record, with
    [success] false, to the executions of the task named by the record's
    [id]: the broker it leaves is the broker [b0] the body left, or the one
    it was given when the body was not called, with at most that record
    added.  So with a body that writes nothing a success leaves the broker
    as it was. *)
Theorem executions_logged_on_failure_only env task b success b' :
  _execute_forked env task b = (inr success, b') →
  (∃ b0,
     ((success = false ∧ b0 = b)
      ∨ ∃ func args kwargs hard_timeout outcome,
          call env func args kwargs hard_timeout b = (outcome, b0)
          ∧ success = match outcome with
                      | Returned => true
                      | Raised _ => false
                      end)
     ∧ if success then b' = b0
       else
         ∃ id d,
           py_getitem task "id" = inr (PStr id)
           ∧ dict_get "success" d = Some (PBool false)
           ∧ b' = conn.rpush (_key ["task"; id; "executions"])
                    (json_dumps false (PDict d)) b0)
  ∧ ((∀ func args kwargs hard_timeout,
        (call env func args kwargs hard_timeout b).2 = b) →
     if success then b' = b
     else
       ∃ id d,
         py_getitem task "id" = inr (PStr id)
         ∧ dict_get "success" d = Some (PBool false)
         ∧ b' = conn.rpush (_key ["task"; id; "executions"])
                  (json_dumps false (PDict d)) b).
Proof.
  intros Hrun.
  assert (∃ b0,
     ((success = false ∧ b0 = b)
      ∨ ∃ func args kwargs hard_timeout outcome,
          call env func args kwargs hard_timeout b = (outcome, b0)
          ∧ success = match outcome with
                      | Returned => true
                      | Raised _ => false
                      end)
     ∧ if success then b' = b0
       else
         ∃ id d,
           py_getitem task "id" = inr (PStr id)
           ∧ dict_get "success" d = Some (PBool false)
           ∧ b' = conn.rpush (_key ["task"; id; "executions"])
                    (json_dumps false (PDict d)) b0) as Hgen.
  { revert Hrun. unfold _execute_forked.
    assert (∀ execution b0,
      (if negb false then
         let execution := dict_set "success" (PBool false) execution in
         let serialized_execution := json_dumps false (PDict execution) in
         match (id ← py_getitem task "id"; key_part id) with
         | inl e => (raise e, b0)
         | inr id =>
             (mret false,
              conn.rpush (_key ["task"; id; "executions"])
                serialized_execution b0)
         end
       else (mret false, b0)) = (inr success, b') →
      success = false
      ∧ ∃ id d,
          py_getitem task "id" = inr (PStr id)
          ∧ dict_get "success" d = Some (PBool false)
          ∧ b' = conn.rpush (_key ["task"; id; "executions"])
                   (json_dumps false (PDict d)) b0) as Hfailed.
    { intros execution b0. cbn [negb].
      destruct (py_getitem task "id") as [e|id] eqn:Hid; [done|].
      cbn [mbind res_bind].
      destruct id as [| | |id| |]; try done.
      cbn [key_part mbind res_bind mret res_ret].
      intros [= <- <-]. split; [done|]. eexists id, _.
      split_and!; [done| |done]. apply dict_get_set_eq. }
    destruct (name ← py_getitem task "func";
              _func_from_serialized_name env name) as [e|func].
    - destruct (import_caught e); [|done].
      intros Hrun. apply Hfailed in Hrun as [-> Hrec].
      exists b. split; [by left|done].
    - destruct (args ← py_get task "args" (PList []);
                kwargs ← py_get task "kwargs" (PDict []);
                mret (args, kwargs)) as [e|[args kwargs]]; [done|].
      destruct (hard_timeout_of task func) as [e|hard_timeout].
      + intros Hrun. apply Hfailed in Hrun as [-> Hrec].
        exists b. split; [by left|done].
      + destruct (call env func args kwargs hard_timeout b)
          as [[|traceback] b0] eqn:Hcall.
        * cbn [negb]. intros [= <- <-]. exists b0. split; [|done].
          right. by exists func, args, kwargs, hard_timeout, Returned.
        * intros Hrun. apply Hfailed in Hrun as [-> Hrec].
          exists b0. split; [|done].
          right. by exists func, args, kwargs, hard_timeout,
                   (Raised traceback). }
  split; [exact Hgen|].
  intros Hframe. destruct Hgen as (b0 & Hb0 & Hres).
  assert (b0 = b) as ->; [|done].
  destruct Hb0 as [[_ ->]|(func & args & kwargs & hard_timeout & outcome
                           & Hcall & _)]; [done|].
  specialize (Hframe func args kwargs hard_timeout).
  by rewrite Hcall in Hframe.
Qed.

(** An empty queue: the call returns [None] and leaves the broker as it
    was, and the loop of [_worker_run] drops the queue from its queue set.
    [None] is returned in no other case. *)
Theorem empty_queue_dropped queue r b :
  (conn.zset (bucket Queued queue) b = ∅ →
   _process_from_queue queue r b = inr (None, b)
   ∧ ∀ visits stop_requested queue_set,
       visit_queues ((queue, r, stop_requested) :: visits) queue_set b =
       if stop_requested then inr (queue_set ∖ {[queue]}, b, true)
       else visit_queues visits (queue_set ∖ {[queue]}) b)
  ∧ (∀ b', _process_from_queue queue r b = inr (None, b') →
           conn.zset (bucket Queued queue) b = ∅ ∧ b' = b).
Proof.
  split.
  - intros Hempty.
    assert (_process_from_queue queue r b = inr (None, b)) as Hp.
    { unfold _process_from_queue, claim.
      rewrite (surjective_pairing (scripts.zpoppush _ _ _ _ _ _ b)).
      rewrite zpoppush_ids, zpoppush_sets_nil;
        by rewrite (zrangebyscore_empty _ _ _ Hempty). }
    split; [done|]. intros visits stop_requested queue_set.
    cbn [visit_queues]. rewrite Hp. cbn [mbind res_bind].
    by destruct stop_requested.
  - intros b'. unfold _process_from_queue, claim.
    rewrite (surjective_pairing (scripts.zpoppush _ _ _ _ _ _ b)).
    rewrite zpoppush_ids.
    destruct (take 1 (scripts.zrangebyscore (_key ["queued"; queue]) None b))
      as [|task_id ids] eqn:Hids.
    + rewrite zpoppush_sets_nil by done. cbn. intros [= <-].
      split; [|done]. apply zrangebyscore_nil_unbounded.
      destruct (scripts.zrangebyscore (_key ["queued"; queue]) None b)
        as [|x l] eqn:Hr; [|discriminate Hids].
      exact Hr.
    + destruct (negb (bool_decide (length (task_id :: ids) < 2)%nat));
        [done|].
      destruct (conn.get _ _) as [serialized_task|]; [|done].
      destruct (String.eqb serialized_task EmptyString); [done|].
      destruct (json_loads serialized_task) as [e|task]; [done|].
      cbn [mbind res_bind].
      destruct (_execute _ _ _ _ _) as [e|[success b1]]; [done|].
      cbn [mbind res_bind]. destruct success; [|done].
      by destruct (py_get task "unique" (PBool false)).
Qed.


Lemma visit_queues_queue_set visits queue_set b queue_set' b' stopped :
  visit_queues visits queue_set b = inr (queue_set', b', stopped) →
  queue_set' ⊆ queue_set
  ∧ ∀ queue, queue ∈ queue_set → queue ∉ visits.*1.*1 → queue ∈ queue_set'.
Proof.
  revert queue_set b.
  induction visits as [|[[queue r] stop] visits IH]; intros queue_set b Hv.
  - cbn in Hv. injection Hv as <- _ _. split; [done|]. by intros.
  - cbn [visit_queues] in Hv.
    destruct (_process_from_queue queue r b) as [e|[result b2]]; [done|].
    cbn [mbind res_bind] in Hv.
    set (queue_set2 := match result with
                       | Some _ => queue_set
                       | None => queue_set ∖ {[queue]}
                       end) in *.
    assert (queue_set2 ⊆ queue_set
            ∧ ∀ q, q ∈ queue_set → q ≠ queue → q ∈ queue_set2)
      as [Hsub Hkeep].
    { unfold queue_set2. destruct result as [task_id|].
      - split; [done|]. by intros.
      - split; [apply subseteq_difference_l; done|].
        intros q Hq Hne. apply elem_of_difference. split; [done|].
        by intros ?%elem_of_singleton. }
    assert (queue_set' ⊆ queue_set2
            ∧ ∀ q, q ∈ queue_set2 → q ∉ visits.*1.*1 → q ∈ queue_set')
      as [Hsub1 Hkeep1].
    { destruct stop.
      - injection Hv as <- _ _. split; [done|]. by intros.
      - by apply (IH _ b2). }
    split; [by etrans|]. intros q Hq Hnot. cbn in Hnot.
    apply not_elem_of_cons in Hnot as [Hne Hnot].
    apply Hkeep1; [|done]. by apply Hkeep.
Qed.

(** The queue set of a pass only shrinks, and only by queues the pass has
    visited. *)
Theorem worker_run_queue_set visits stop_requested now queue_set b
    queue_set' b' :
  _worker_run visits stop_requested now queue_set b = inr (queue_set', b') →
  queue_set' ⊆ queue_set
  ∧ ∀ queue, queue ∈ queue_set → queue ∉ visits.*1.*1 → queue ∈ queue_set'.
Proof.
  unfold _worker_run.
  destruct (visit_queues visits queue_set b)
    as [e|[[queue_set1 b1] stopped]] eqn:Hv; [done|].
  cbn [mbind res_bind mret res_ret]. intros [= <- _].
  by eapply visit_queues_queue_set.
Qed.

(** A stop request ends the pass: the queues after the one during which the
    stop was requested are not visited, and the reclaim of expired tasks is
    left out. *)
Theorem stop_request_ends_pass before queue r after stop_at_end now
    queue_set b :
  Forall (λ visit, visit.2 = false) before →
  visit_queues (before ++ (queue, r, true) :: after) queue_set b
  = visit_queues (before ++ [(queue, r, true)]) queue_set b
  ∧ ∀ queue_set' b' stopped,
      visit_queues (before ++ [(queue, r, true)]) queue_set b
        = inr (queue_set', b', stopped) →
      stopped = true
      ∧ _worker_run (before ++ (queue, r, true) :: after) stop_at_end now
          queue_set b = inr (queue_set', b').
Proof.
  intros Hbefore.
  assert (∀ queue_set b,
            visit_queues (before ++ (queue, r, true) :: after) queue_set b
            = visit_queues (before ++ [(queue, r, true)]) queue_set b
            ∧ ∀ queue_set' b' stopped,
                visit_queues (before ++ [(queue, r, true)]) queue_set b
                  = inr (queue_set', b', stopped) → stopped = true) as Hv.
  { clear queue_set b.
    induction Hbefore as [|[[q0 r0] stop0] before Hstop _ IH];
      intros queue_set b.
    - cbn [app visit_queues].
      destruct (_process_from_queue queue r b) as [e|[result b1]];
        cbn [mbind res_bind]; [done|]. split; [done|].
      by intros ? ? ? [= _ _ <-].
    - simpl in Hstop. subst stop0. cbn [app visit_queues].
      destruct (_process_from_queue q0 r0 b) as [e|[result b1]];
        cbn [mbind res_bind]; [done|]. apply IH. }
  destruct (Hv queue_set b) as [Heq Hstopped]. split; [done|].
  intros queue_set' b' stopped Hres.
  pose proof (Hstopped _ _ _ Hres) as ->. split; [done|].
  unfold _worker_run. rewrite Heq, Hres. done.
Qed.

(** When no task of any active queue has a score as old as the timeout, the
    reclaim changes nothing in the broker and publishes nothing. *)
Theorem reclaim_without_expired_tasks now b :
  (∀ queue id score,
     queue ∈ conn.smembers (_key ["active"]) b →
     conn.zscore (bucket Active queue) id b = Some score →
     now - ACTIVE_TASK_UPDATE_TIMEOUT < score) →
  _worker_queue_expired_tasks now b = b.
Proof.
  intros Hfresh. unfold _worker_queue_expired_tasks.
  assert (∀ queue, queue ∈ elements (conn.smembers (_key ["active"]) b) →
            requeue_expired now b queue = b) as Hstep.
  { intros queue Hin%elem_of_elements. unfold requeue_expired.
    assert (scripts.zrangebyscore (_key ["active"; queue])
              (Some (now - ACTIVE_TASK_UPDATE_TIMEOUT)) b = []) as Hnil.
    { destruct (scripts.zrangebyscore _ _ b) as [|id ids] eqn:Hr; [done|].
      assert (id ∈ scripts.zrangebyscore (_key ["active"; queue])
                (Some (now - ACTIVE_TASK_UPDATE_TIMEOUT)) b) as Hid
        by (rewrite Hr; by left).
      apply elem_of_zrangebyscore in Hid as (score & Hs & Hle).
      simpl in Hle. specialize (Hfresh queue id score Hin Hs). lia. }
    rewrite (surjective_pairing (scripts.zpoppush _ _ _ _ _ _ b)).
    rewrite zpoppush_ids, zpoppush_sets_nil; by rewrite Hnil. }
  revert Hstep. generalize (elements (conn.smembers (_key ["active"]) b)).
  intros queues. induction queues as [|queue queues IH]; intros Hstep;
    [done|].
  cbn [foldl]. rewrite Hstep by left. apply IH.
  intros q Hq. apply Hstep. by right.
Qed.

End executor_more.

(** ** The activity channel *)

Lemma union_singleton_nonempty (x : string) (X : gset string) :
  {[x]} ∪ X ≠ ∅.
Proof.
  intros Hempty. apply (not_elem_of_empty (C := gset string) x).
  rewrite <- Hempty. apply elem_of_union_l. by apply elem_of_singleton.
Qed.

(** [_worker_update_queue_set] returns only with a queue set that is not
    empty; the set holds the queues it was given and, beyond them, only
    queues that were the data of a message of type [message].  It returns
    at once, reading nothing, when it is given queues and the socket is not
    readable; and it returns at all exactly when it is given queues or some
    message of type [message] arrives. *)
Theorem update_queue_set_returns inbox queue_set :
  (∀ queue_set',
     _worker_update_queue_set inbox queue_set = Some queue_set' →
     queue_set' ≠ ∅
     ∧ queue_set ⊆ queue_set'
     ∧ ∀ queue, queue ∈ queue_set' →
         queue ∈ queue_set
         ∨ ∃ readable message,
             (readable, message) ∈ inbox
             ∧ msg_type message = "message"
             ∧ msg_data message = queue)
  ∧ (queue_set ≠ ∅ →
     (∀ message rest, inbox = (false, message) :: rest →
        _worker_update_queue_set inbox queue_set = Some queue_set)
     ∧ (inbox = [] →
        _worker_update_queue_set inbox queue_set = Some queue_set))
  ∧ (is_Some (_worker_update_queue_set inbox queue_set) ↔
     queue_set ≠ ∅
     ∨ Exists (λ item, msg_type item.2 = "message") inbox).
Proof.
  split_and!.
  - revert queue_set.
    induction inbox as [|[readable message] inbox IH];
      intros queue_set queue_set'.
    + cbn. case_decide; [done|]. intros [= <-]. split_and!; [done..|].
      intros queue ?. by left.
    + cbn [_worker_update_queue_set].
      destruct (readable || bool_decide (queue_set = ∅)) eqn:Hcond.
      * intros Hres. apply IH in Hres as (Hne & Hsub & Hfrom).
        destruct (String.eqb (msg_type message) "message") eqn:Htype.
        -- apply String.eqb_eq in Htype. split_and!; [done| |].
           { etrans; [apply union_subseteq_r|done]. }
           intros queue Hq. destruct (Hfrom queue Hq) as [Hin|Hmsg].
           ++ apply elem_of_union in Hin as [->%elem_of_singleton|Hin].
              ** right. exists readable, message. split_and!; [by left|done..].
              ** by left.
           ++ right. destruct Hmsg as (rd & m & Hin & ? & ?).
              exists rd, m. split_and!; [by right|done..].
        -- split_and!; [done..|].
           intros queue Hq. destruct (Hfrom queue Hq) as [Hin|Hmsg];
             [by left|].
           right. destruct Hmsg as (rd & m & Hin & ? & ?).
           exists rd, m. split_and!; [by right|done..].
      * intros [= <-]. apply orb_false_elim in Hcond as [_ Hne].
        apply bool_decide_eq_false in Hne.
        split_and!; [done..|]. intros queue ?. by left.
  - intros Hne. split.
    + intros message rest ->. cbn.
      by rewrite bool_decide_eq_false_2.
    + intros ->. cbn. by rewrite decide_False.
  - revert queue_set.
    induction inbox as [|[readable message] inbox IH]; intros queue_set.
    + cbn. case_decide as Hq; split.
      * by intros [? ?].
      * intros [?|?%Exists_nil]; done.
      * intros _. by left.
      * intros _. by eexists.
    + cbn [_worker_update_queue_set]. rewrite Exists_cons. cbn [snd].
      destruct (decide (queue_set = ∅)) as [->|Hne].
      * rewrite bool_decide_eq_true_2 by done. rewrite orb_true_r.
        rewrite IH. destruct (String.eqb (msg_type message) "message")
          eqn:Htype.
        -- apply String.eqb_eq in Htype. split; [intros _|intros _].
           ++ right. by left.
           ++ left. apply union_singleton_nonempty.
        -- apply String.eqb_neq in Htype. split.
           ++ intros [?|?]; [done|]. right. by right.
           ++ intros [?|[?|?]]; [done..|]. by right.
      * rewrite bool_decide_eq_false_2 by done. rewrite orb_false_r.
        destruct readable.
        -- rewrite IH. split; [intros _; by left|intros _].
           left. destruct (String.eqb _ _); [|done].
           apply union_singleton_nonempty.
        -- split; [intros _; by left|intros _; by eexists].
Qed.

(** ** The status sets as an index of the sorted sets *)

Lemma status_key_inj s s' :
  _key [status_name s] = _key [status_name s'] → s = s'.
Proof. destruct s, s'; intros H; key_eq H; done. Qed.

Lemma zset_nonempty_size (m : gmap string Z) : size m ≠ 0%nat ↔ m ≠ ∅.
Proof. by rewrite map_size_empty_iff. Qed.

Lemma indexed_empty s : indexed s empty_broker.
Proof.
  intros queue. unfold conn.smembers, conn.zset. simpl.
  rewrite !lookup_empty. simpl. split; [|done].
  by intros ?%not_elem_of_empty.
Qed.

(** The scripted move between the sorted sets of two statuses of a queue,
    with its bookkeeping of the two status sets, keeps every status set in
    step with its sorted sets. *)
Lemma zpoppush_indexed s1 s2 queue count max_score new_score b s :
  s1 ≠ s2 →
  indexed s b →
  indexed s
    (scripts.zpoppush (bucket s1 queue) (bucket s2 queue) count max_score
       new_score
       (Some (update_sets (_key [status_name s1]) (_key [status_name s2])
                queue)) b).2.
Proof.
  intros Hs12 Hb.
  destruct (take count (scripts.zrangebyscore (bucket s1 queue) max_score b))
    as [|x ids] eqn:Hids.
  { by rewrite zpoppush_sets_nil. }
  pose proof (zpoppush_zset (bucket s1 queue) (bucket s2 queue) count
                max_score new_score
                (Some (update_sets (_key [status_name s1])
                         (_key [status_name s2]) queue)) b) as Hz.
  pose proof (λ k, zpoppush_smembers (bucket s1 queue) (bucket s2 queue) count
                max_score new_score (_key [status_name s1])
                (_key [status_name s2]) queue b k) as Hsm.
  rewrite Hids in Hz, Hsm.
  set (b' := (scripts.zpoppush _ _ _ _ _ _ b).2) in *.
  assert (bucket s1 queue ≠ bucket s2 queue) as Hsd.
  { by intros [? _]%bucket_inj. }
  assert (∀ k, k ≠ bucket s1 queue → k ≠ bucket s2 queue →
               conn.zset k b' = conn.zset k b) as Hother.
  { intros k H1 H2. apply map_eq. intros id. rewrite Hz.
    case_decide; [|done]. rewrite decide_False by done.
    by rewrite decide_False. }
  assert (conn.zset (bucket s1 queue) b' ≠ ∅ →
          conn.zset (bucket s1 queue) b ≠ ∅) as Hsrc.
  { intros Hne Hempty. apply Hne. apply map_eq. intros id.
    rewrite Hz, Hempty, lookup_empty. case_decide; [|done].
    rewrite decide_False by done. by rewrite decide_True. }
  assert (conn.zset (bucket s2 queue) b' ≠ ∅) as Hdst.
  { intros Hempty.
    pose proof (Hz (bucket s2 queue) x) as Hx. rewrite Hempty in Hx.
    rewrite lookup_empty, decide_True in Hx by left.
    by rewrite decide_True in Hx. }
  intros q. rewrite Hsm by done. unfold conn.zcard.
  destruct (decide (s = s1)) as [->|Hs1].
  - rewrite (decide_False (P := _ = _key [status_name s1])).
    2:{ intros ?%status_key_inj. by apply Hs12. }
    destruct (decide (q = queue)) as [->|Hq].
    + case_decide as Hcard.
      * destruct Hcard as [Hcard _]. apply map_size_empty_iff in Hcard.
        rewrite elem_of_difference, elem_of_singleton. split; [|done].
        by intros [_ ?].
      * assert (conn.zset (bucket s1 queue) b' ≠ ∅) as Hne.
        { intros Hempty. apply Hcard. split; [|done].
          by apply map_size_empty_iff. }
        split; [done|]. intros _. by apply Hb, Hsrc.
    + rewrite (Hother (bucket s1 q)).
      2:{ intros [_ ?]%bucket_inj. done. }
      2:{ intros [? _]%bucket_inj. done. }
      rewrite <- (Hb q). case_decide; [|done].
      rewrite elem_of_difference, elem_of_singleton. split; [by intros [? _]|].
      done.
  - rewrite (decide_False (P := _ ∧ _)).
    2:{ intros [_ ?%status_key_inj]. by apply Hs1. }
    destruct (decide (s = s2)) as [->|Hs2].
    + rewrite decide_True by done.
      rewrite elem_of_union, elem_of_singleton.
      destruct (decide (q = queue)) as [->|Hq].
      * split; [done|]. by left.
      * rewrite (Hother (bucket s2 q)).
        2:{ intros [? _]%bucket_inj. done. }
        2:{ intros [_ ?]%bucket_inj. done. }
        rewrite <- (Hb q). split; [by intros [?|?]|by right].
    + rewrite decide_False.
      2:{ intros ?%status_key_inj. by apply Hs2. }
      rewrite (Hother (bucket s q)).
      2:{ intros [? _]%bucket_inj. done. }
      2:{ intros [? _]%bucket_inj. done. }
      apply Hb.
Qed.

Section index.
Context `{lib : PyLib}.

Lemma delay_indexed func args kwargs queue hard_timeout unique urandom now
    b b' s :
  delay func args kwargs queue hard_timeout unique urandom now b = inr b' →
  indexed s b → indexed s b'.
Proof.
  intros Hd Hb.
  pose proof (delay_inr_module _ _ _ _ _ _ _ _ _ _ Hd) as Hm.
  destruct (delay_effect func args kwargs queue hard_timeout unique urandom
              now b Hm) as (b'' & Hd' & _ & _ & Hzq & Hz & Hsq & Hsm & _).
  rewrite Hd in Hd'. injection Hd' as <-.
  intros q. destruct (decide (s = Queued)) as [->|Hs].
  - change (_key [status_name Queued]) with (_key ["queued"]).
    rewrite Hsq, elem_of_union, elem_of_singleton.
    destruct (decide (q = queue_of func queue)) as [->|Hq].
    + rewrite Hzq. split; [intros _|by left].
      apply insert_non_empty.
    + rewrite Hz by (intros [_ ?]%bucket_inj; done).
      rewrite <- (Hb q). split; [by intros [?|?]|by right].
  - rewrite Hsm by (intros ?%(status_key_inj s Queued); done).
    rewrite Hz by (intros [? _]%bucket_inj; done). apply Hb.
Qed.

Lemma reconcile_success_indexed queue task_id unique b s :
  indexed s b → indexed s (reconcile_success queue task_id unique b).
Proof.
  intros Hb.
  destruct (reconcile_success_effect queue task_id unique b)
    as (Hza & Hz & _ & _ & Hact & Hsm & _).
  intros q. destruct (decide (s = Active)) as [->|Hs].
  - change (_key [status_name Active]) with (_key ["active"]).
    rewrite Hact. unfold conn.zcard.
    destruct (decide (q = queue)) as [->|Hq].
    + rewrite map_size_empty_iff. split.
      * intros [_ Hn] Hempty. by apply Hn.
      * intros Hne. split; [|by intros [_ ?]]. apply Hb.
        intros Hempty. apply Hne. rewrite Hza, Hempty. apply delete_empty.
    + rewrite (Hz (bucket Active q)) by (intros [_ ?]%bucket_inj; done).
      rewrite <- (Hb q). split; [by intros [? _]|].
      intros ?. split; [done|]. by intros [? _].
  - rewrite Hsm by (intros ?%(status_key_inj s Active); done).
    rewrite (Hz (bucket s q)) by (intros [? _]%bucket_inj; done). apply Hb.
Qed.

Lemma reconcile_failure_indexed queue task_id now b s :
  s ≠ Error →
  indexed s b → indexed s (reconcile_failure queue task_id now b).
Proof.
  intros Herr Hb.
  destruct (reconcile_failure_effect queue task_id now b)
    as (Hza & _ & Hz & Hact & Hsm & _).
  intros q. destruct (decide (s = Active)) as [->|Hs].
  - change (_key [status_name Active]) with (_key ["active"]).
    rewrite Hact. unfold conn.zcard.
    destruct (decide (q = queue)) as [->|Hq].
    + rewrite map_size_empty_iff. split.
      * intros [_ Hn] Hempty. by apply Hn.
      * intros Hne. split; [|by intros [_ ?]]. apply Hb.
        intros Hempty. apply Hne. rewrite Hza, Hempty. apply delete_empty.
    + rewrite (Hz (bucket Active q)).
      2:{ intros [_ ?]%bucket_inj. done. }
      2:{ intros [? _]%bucket_inj. done. }
      rewrite <- (Hb q). split; [by intros [? _]|].
      intros ?. split; [done|]. by intros [? _].
  - rewrite Hsm by (intros ?%(status_key_inj s Active); done).
    rewrite (Hz (bucket s q)).
    2:{ intros [? _]%bucket_inj. done. }
    2:{ intros [? _]%bucket_inj. done. }
    apply Hb.
Qed.

Lemma requeue_expired_indexed now b queue s :
  indexed s b → indexed s (requeue_expired now b queue).
Proof.
  intros Hb. unfold requeue_expired.
  pose proof (zpoppush_indexed Active Queued queue
                ACTIVE_TASK_EXPIRED_BATCH_SIZE
                (Some (now - ACTIVE_TASK_UPDATE_TIMEOUT)) now b s
                ltac:(done) Hb) as Hb'.
  change (bucket Active queue) with (_key ["active"; queue]) in Hb'.
  change (bucket Queued queue) with (_key ["queued"; queue]) in Hb'.
  change (_key [status_name Active]) with (_key ["active"]) in Hb'.
  change (_key [status_name Queued]) with (_key ["queued"]) in Hb'.
  destruct (scripts.zpoppush _ _ _ _ _ _ b) as [result b1]. simpl in Hb'.
  by destruct result.
Qed.

Lemma apply_op_indexed o b b' s :
  s ≠ Error → apply_op o b = inr b' → indexed s b → indexed s b'.
Proof.
  intros Herr Hop Hb.
  destruct o as [func args kwargs queue hard_timeout unique urandom now
                |queue now|queue task_id unique|queue task_id now|now];
    unfold apply_op, mret, res_ret in Hop.
  - by eapply delay_indexed.
  - assert ((claim queue now b).2 = b') as <- by congruence.
    exact (zpoppush_indexed Queued Active queue 1 None now b s
             ltac:(done) Hb).
  - assert (reconcile_success queue task_id unique b = b') as <-
      by congruence.
    by apply reconcile_success_indexed.
  - assert (reconcile_failure queue task_id now b = b') as <- by congruence.
    by apply reconcile_failure_indexed.
  - assert (_worker_queue_expired_tasks now b = b') as <- by congruence.
    unfold _worker_queue_expired_tasks.
    generalize (elements (conn.smembers (_key ["active"]) b)) as queues.
    intros queues. clear Hop. revert b Hb.
    induction queues as [|queue queues IH]; intros b Hb; [done|].
    cbn [foldl]. by apply IH, requeue_expired_indexed.
Qed.

(** In every broker state reached from the empty broker by any interleaving
    of enqueues, claims, reconciliations of successes and of failures, and
    reclaims, the queued and the active status set list exactly the queues
    whose queued, respectively active, sorted set is not empty; and every
    such operation keeps it so. *)
Theorem status_sets_index_sorted_sets b :
  reachable b →
  (indexed Queued b ∧ indexed Active b)
  ∧ ∀ o b',
      apply_op o b = inr b' → indexed Queued b' ∧ indexed Active b'.
Proof.
  intros Hreach.
  assert (indexed Queued b ∧ indexed Active b) as [Hq Ha].
  { induction Hreach as [|b o b' _ [IHq IHa] _ Hop].
    - split; apply indexed_empty.
    - split; by eapply apply_op_indexed. }
  split; [done|]. intros o b' Hop. split; by eapply apply_op_indexed.
Qed.

End index.

(** ** From the enqueue to the end of the execution *)

Lemma zrangebyscore_singleton k max_score id score b :
  conn.zset k b = {[id := score]} →
  scripts.score_le max_score (id, score) →
  scripts.zrangebyscore k max_score b = [id].
Proof.
  intros Hz Hle. unfold scripts.zrangebyscore.
  rewrite Hz, map_to_list_singleton.
  assert (merge_sort scripts.zorder [(id, score)] = [(id, score)]) as ->.
  { apply Permutation_singleton_r, merge_sort_Permutation. }
  by rewrite filter_cons_True.
Qed.

Section end_to_end.
Context `{lib : PyLib}.

Lemma task_record_func task_id name now unique args kwargs hard_timeout :
  dict_get "func"
    (task_record task_id name now unique args kwargs hard_timeout)
  = Some (PStr name).
Proof.
  unfold task_record.
  by destruct (truthy unique), (truthy args), (truthy kwargs),
    (truthy hard_timeout).
Qed.

Lemma task_record_unique task_id name now unique args kwargs hard_timeout :
  truthy (dict_get_default "unique" (PBool false)
            (task_record task_id name now unique args kwargs hard_timeout))
  = truthy unique.
Proof.
  unfold task_record.
  by destruct (truthy unique), (truthy args), (truthy kwargs),
    (truthy hard_timeout).
Qed.

(** What the task body is called with, for the record [delay] wrote: the
    arguments and keyword arguments given to [delay], an empty list and an
    empty dict in place of falsy ones, and the first truthy of the timeout
    given to [delay], the timeout of the function and the default. *)
Lemma call_of_task_record env task_id name now unique args kwargs
    hard_timeout func b :
  call_of env (task_record task_id name now unique args kwargs hard_timeout)
    func b
  = call env func
      (if truthy args then args else PList [])
      (if truthy kwargs then kwargs else PDict [])
      (py_or hard_timeout
         (py_or (getattr_default (_task_hard_timeout func) PNone)
            (PNum DEFAULT_HARD_TIMEOUT)))
      b.
Proof.
  unfold call_of, task_record, py_or.
  destruct (truthy hard_timeout) eqn:Hh, (truthy unique), (truthy args),
    (truthy kwargs); cbn; rewrite ?Hh; reflexivity.
Qed.

Lemma _execute_forked_resolved env d name func id b :
  dict_get "func" d = Some (PStr name) →
  dict_get "id" d = Some (PStr id) →
  import_attribute env name = inr func →
  _execute_forked env (PDict d) b =
  match call_of env d func b with
  | (Returned, b0) => (inr true, b0)
  | (Raised traceback, b0) =>
      (inr false,
       conn.rpush (_key ["task"; id; "executions"])
         (json_dumps false (failure_record env traceback)) b0)
  end.
Proof.
  intros Hfunc Hid Himport. unfold _execute_forked, call_of. simpl.
  rewrite Hfunc. simpl. rewrite Himport. simpl.
  destruct (call env func _ _ _ _) as [[|traceback] b0]; simpl; [done|].
  by rewrite Hid.
Qed.

(** The execution of a task whose function is imported and whose body ends
    with [outcome] and leaves the broker as it found it. *)
Lemma _execute_resolved queue d name func id env events b outcome :
  dict_get "func" d = Some (PStr name) →
  dict_get "id" d = Some (PStr id) →
  import_attribute env name = inr func →
  Forall retried events →
  call_of env d func b = (outcome, b) →
  ∃ b',
    _execute queue (PDict d) (ChildRuns env) events b
    = inr (match outcome with
           | Returned => true
           | Raised _ => false
           end, b')
    ∧ conn.zset (_key ["active"; queue]) b' =
        match last_timer events with
        | Some now => <[id := now]> (conn.zset (_key ["active"; queue]) b)
        | None => conn.zset (_key ["active"; queue]) b
        end
    ∧ (∀ k, k ≠ _key ["active"; queue] → conn.zset k b' = conn.zset k b)
    ∧ sets b' = sets b
    ∧ strings b' = strings b
    ∧ published b' = published b
    ∧ lists b' =
        lists match outcome with
              | Returned => b
              | Raised traceback =>
                  conn.rpush (_key ["task"; id; "executions"])
                    (json_dumps false (failure_record env traceback)) b
              end.
Proof.
  intros Hfunc Hid Himport Hev Hcall.
  unfold _execute, run_child.
  rewrite (_execute_forked_resolved env d name func id b Hfunc Hid Himport).
  rewrite Hcall.
  assert (py_getitem (PDict d) "id" = inr (PStr id)) as Hid'.
  { simpl. by rewrite Hid. }
  destruct outcome as [|traceback].
  - cbn [negb].
    destruct (wait_child_heartbeats queue (PDict d) id events
                (wait_status (Exited 0)) b Hev Hid')
      as (b' & Hw & Hz & Hzo & Hs & Hst & Hl & Hp).
    exists b'. split_and!; try done. unfold supervise. by rewrite Hw.
  - cbn [negb].
    destruct (wait_child_heartbeats queue (PDict d) id events
                (wait_status (Exited 1))
                (conn.rpush (_key ["task"; id; "executions"])
                   (json_dumps false (failure_record env traceback)) b)
                Hev Hid')
      as (b' & Hw & Hz & Hzo & Hs & Hst & Hl & Hp).
    exists b'. split_and!; try done. unfold supervise. by rewrite Hw.
Qed.

(** The claim of the only task of a queue whose active sorted set is empty:
    the ID moves to the active sorted set with the time of the claim, the
    queued sorted set is left empty, and the queue leaves the queued status
    set and joins the active one. *)
Lemma claim_single queue now_claim b id now :
  conn.zset (bucket Queued queue) b = {[id := now]} →
  conn.zset (bucket Active queue) b = ∅ →
  let b0 := (claim queue now_claim b).2 in
  (claim queue now_claim b).1 = [id]
  ∧ conn.zset (bucket Queued queue) b0 = ∅
  ∧ conn.zset (bucket Active queue) b0 = {[id := now_claim]}
  ∧ (∀ k, k ≠ bucket Queued queue → k ≠ bucket Active queue →
          conn.zset k b0 = conn.zset k b)
  ∧ strings b0 = strings b ∧ lists b0 = lists b
  ∧ published b0 = published b
  ∧ queue ∉ conn.smembers (_key ["queued"]) b0.
Proof.
  unfold bucket. simpl status_name. intros Hq Ha.
  set (b0 := (claim queue now_claim b).2).
  assert (take 1 (scripts.zrangebyscore (_key ["queued"; queue]) None b)
          = [id]) as Hids.
  { by rewrite (zrangebyscore_singleton _ None id now b Hq). }
  pose proof (zpoppush_zset (_key ["queued"; queue]) (_key ["active"; queue])
                1 None now_claim
                (Some (update_sets (_key ["queued"]) (_key ["active"]) queue))
                b) as Hz.
  rewrite Hids in Hz. fold (claim queue now_claim b) in Hz. fold b0 in Hz.
  destruct (zpoppush_frame (_key ["queued"; queue]) (_key ["active"; queue])
              1 None now_claim
              (Some (update_sets (_key ["queued"]) (_key ["active"]) queue))
              b) as (Hs & Hl & Hp).
  fold (claim queue now_claim b) in Hs, Hl, Hp. fold b0 in Hs, Hl, Hp.
  assert (conn.zset (_key ["queued"; queue]) b0 = ∅) as Hq0.
  { apply map_eq. intros id'. rewrite Hz, lookup_empty.
    rewrite (decide_False (P := _ = _key ["active"; queue]))
      by apply not_eq_sym, active_neq_queued.
    rewrite (decide_True (P := _ = _key ["queued"; queue])) by done.
    case_decide as Hin; [done|]. rewrite Hq. apply lookup_singleton_ne.
    intros ->. apply Hin. by left. }
  split_and!; try done.
  - apply map_eq. intros id'. rewrite Hz.
    rewrite (decide_True (P := _ = _key ["active"; queue])) by done.
    destruct (decide (id' = id)) as [->|Hne].
    + rewrite decide_True by left. by rewrite lookup_singleton_eq.
    + rewrite decide_False by (by intros ?%list_elem_of_singleton).
      rewrite Ha, lookup_empty. by rewrite lookup_singleton_ne.
  - intros k Hkq Hka. apply map_eq. intros id'. rewrite Hz.
    case_decide; [|done]. rewrite decide_False by done.
    by rewrite decide_False.
  - unfold b0, claim.
    rewrite zpoppush_smembers by (rewrite Hids; done).
    fold (claim queue now_claim b). fold b0. unfold conn.zcard.
    rewrite decide_True.
    2:{ split; [|done]. apply map_size_empty_iff, Hq0. }
    rewrite elem_of_difference, elem_of_singleton. by intros [_ ?].
Qed.

(** A task enqueued on a queue with nothing queued and nothing active, then
    claimed and executed by a worker that can import its function, the
    body ending with [outcome] and writing nothing to the broker: the state
    in which the reconciliation finds the broker. *)
Lemma enqueue_claim_execute func args kwargs queue hard_timeout unique urandom
    now b r env f outcome :
  __module__ func ≠ "__main__" →
  let name := __module__ func +:+ "." +:+ __name__ func in
  let flag := unique_of func unique in
  let id := task_id_of name args kwargs flag urandom in
  let q := queue_of func queue in
  let d := task_record id name now flag args kwargs hard_timeout in
  let s := json_dumps false (PDict d) in
  json_loads s = inr (PDict d) →
  s ≠ EmptyString →
  conn.zset (bucket Queued q) b = ∅ →
  conn.zset (bucket Active q) b = ∅ →
  import_attribute env name = inr f →
  fate r = ChildRuns env →
  Forall retried (waits r) →
  (∀ b0, call_of env d f b0 = (outcome, b0)) →
  ∃ b1 be,
    delay func args kwargs queue hard_timeout unique urandom now b = inr b1
    ∧ _process_from_queue q r b1 =
        inr (Some id,
             match outcome with
             | Returned =>
                 reconcile_success q id
                   (dict_get_default "unique" (PBool false) d) be
             | Raised _ => reconcile_failure q id (now_failed r) be
             end)
    ∧ conn.zset (bucket Queued q) be = ∅
    ∧ delete id (conn.zset (bucket Active q) be) = ∅
    ∧ conn.zset (bucket Error q) be = conn.zset (bucket Error q) b
    ∧ (q ∉ conn.smembers (_key ["queued"]) be)
    ∧ conn.smembers (_key ["error"]) be = conn.smembers (_key ["error"]) b
    ∧ conn.get (_key ["task"; id]) be = Some s
    ∧ published be = published b ++ [(_key ["activity"], q)]
    ∧ lists be =
        lists match outcome with
              | Returned => b
              | Raised traceback =>
                  conn.rpush (_key ["task"; id; "executions"])
                    (json_dumps false (failure_record env traceback)) b
              end.
Proof.
  intros Hm name flag id q d s Hloads Hne Hq Ha Himport Hfate Hev Hcall.
  destruct (delay_effect func args kwargs queue hard_timeout unique urandom
              now b Hm) as (b1 & Hd & Hr & _ & Hzq & Hz1 & _ & Hsm1 & Hl1
                            & Hp1).
  fold name flag in Hr, Hzq. fold id in Hr, Hzq. fold q in Hzq, Hz1, Hp1.
  fold d s in Hr. rewrite Hq, insert_empty in Hzq.
  assert (conn.zset (bucket Active q) b1 = ∅) as Ha1.
  { rewrite Hz1; [done|]. by intros [? _]%bucket_inj. }
  destruct (claim_single q (now_claim r) b1 id now Hzq Ha1)
    as (Hids & Hq0 & Ha0 & Hz0 & Hs0 & Hl0 & Hp0 & Hsq0).
  set (b0 := (claim q (now_claim r) b1).2) in *.
  assert (conn.get (_key ["task"; id]) b0 = Some s) as Hget0.
  { unfold conn.get. rewrite Hs0. exact Hr. }
  destruct (_execute_resolved q d name f id env (waits r) b0 outcome)
    as (be & Hexec & Hzae & Hzoe & Hse & Hste & Hpe & Hle);
    [apply task_record_func|apply task_record_id|done..|].
  rewrite <- Hfate in Hexec.
  exists b1, be. split; [done|]. split.
  { rewrite (_process_from_queue_executed _ _ _ _ _ _ _ _
               Hids Hget0 Hne Hloads Hexec).
    by destruct outcome. }
  assert (∀ k, conn.smembers k be = conn.smembers k b0) as Hsme.
  { intros k. unfold conn.smembers. by rewrite Hse. }
  split_and!.
  - rewrite Hzoe; [done|]. apply not_eq_sym, active_neq_queued.
  - change (bucket Active q) with (_key ["active"; q]) in *.
    rewrite Hzae, Ha0.
    destruct (last_timer (waits r)).
    + rewrite delete_insert_eq. apply delete_singleton_eq.
    + apply delete_singleton_eq.
  - rewrite Hzoe by apply not_eq_sym, active_neq_error.
    rewrite Hz0.
    2:{ by intros [? _]%bucket_inj. }
    2:{ by intros [? _]%bucket_inj. }
    apply Hz1. by intros [? _]%bucket_inj.
  - by rewrite Hsme.
  - rewrite Hsme.
    assert (∀ k, k ≠ _key ["queued"] → k ≠ _key ["active"] →
                 conn.smembers k b0 = conn.smembers k b1) as Hsm0.
    { intros k Hkq Hka. unfold b0, claim.
      rewrite zpoppush_smembers.
      2:{ fold (claim q (now_claim r) b1). unfold claim in Hids.
          rewrite zpoppush_ids in Hids. by rewrite Hids. }
      cbn zeta. rewrite (decide_False (P := _ ∧ _)) by (by intros [_ ?]).
      by rewrite decide_False. }
    rewrite Hsm0 by keys. apply Hsm1. keys.
  - unfold conn.get. rewrite Hste. exact Hget0.
  - by rewrite Hpe, Hp0.
  - rewrite Hle. destruct outcome as [|traceback].
    + by rewrite Hl0.
    + unfold conn.rpush, conn.lrange. simpl. by rewrite Hl0, Hl1.
Qed.

(** Enqueue, claim, succeed.  A task enqueued on a queue with nothing queued
    and nothing active, whose function the worker imports and whose body
    returns without writing to the broker: after the worker's pass over the
    queue the task record is gone, the ID is in no sorted set of the queue,
    the queue is in neither the queued nor the active status set, and no
    execution record was written.  The body is called with the arguments
    given to [delay]. *)
Theorem enqueue_process_success func args kwargs queue hard_timeout unique
    urandom now b r env f :
  __module__ func ≠ "__main__" →
  let name := __module__ func +:+ "." +:+ __name__ func in
  let flag := unique_of func unique in
  let id := task_id_of name args kwargs flag urandom in
  let q := queue_of func queue in
  let s :=
    json_dumps false
      (PDict (task_record id name now flag args kwargs hard_timeout)) in
  json_loads s
    = inr (PDict (task_record id name now flag args kwargs hard_timeout)) →
  s ≠ EmptyString →
  conn.zset (bucket Queued q) b = ∅ →
  conn.zset (bucket Active q) b = ∅ →
  conn.zscore (bucket Error q) id b = None →
  import_attribute env name = inr f →
  fate r = ChildRuns env →
  Forall retried (waits r) →
  (∀ b0,
     call env f
       (if truthy args then args else PList [])
       (if truthy kwargs then kwargs else PDict [])
       (py_or hard_timeout
          (py_or (getattr_default (_task_hard_timeout f) PNone)
             (PNum DEFAULT_HARD_TIMEOUT))) b0 = (Returned, b0)) →
  ∃ b1 b2,
    delay func args kwargs queue hard_timeout unique urandom now b = inr b1
    ∧ _process_from_queue q r b1 = inr (Some id, b2)
    ∧ conn.get (_key ["task"; id]) b2 = None
    ∧ conn.zset (bucket Queued q) b2 = ∅
    ∧ conn.zset (bucket Active q) b2 = ∅
    ∧ conn.zscore (bucket Error q) id b2 = None
    ∧ (q ∉ conn.smembers (_key ["queued"]) b2)
    ∧ (q ∉ conn.smembers (_key ["active"]) b2)
    ∧ lists b2 = lists b
    ∧ published b2 = published b ++ [(_key ["activity"], q)].
Proof.
  intros Hm name flag id q s Hloads Hne Hq Ha He Himport Hfate Hev Hcall.
  destruct (enqueue_claim_execute func args kwargs queue hard_timeout unique
              urandom now b r env f Returned Hm Hloads Hne Hq Ha Himport
              Hfate Hev)
    as (b1 & be & Hd & Hp & Hqe & Hae & Hee & Hsq & _ & Hget & Hpub & Hl).
  { intros b0. rewrite call_of_task_record. apply Hcall. }
  fold name flag in Hp, Hqe, Hae, Hee, Hsq, Hget, Hpub, Hl.
  fold id in Hp, Hqe, Hae, Hee, Hsq, Hget, Hpub, Hl.
  fold q in Hp, Hqe, Hae, Hee, Hsq, Hget, Hpub, Hl.
  set (flag' := dict_get_default "unique" (PBool false)
                  (task_record id name now flag args kwargs hard_timeout))
    in *.
  destruct (reconcile_success_effect q id flag' be)
    as (Hza & Hz & Hg & _ & Hact & Hsm & Hl2 & Hp2).
  exists b1, (reconcile_success q id flag' be).
  split; [done|]. split; [done|]. split_and!.
  - rewrite Hg.
    rewrite (bool_decide_eq_false_2 (member id (bucket Queued q) be)).
    2:{ intros [x Hx]. unfold conn.zscore in Hx.
        by rewrite Hqe, lookup_empty in Hx. }
    rewrite (bool_decide_eq_false_2 (member id (bucket Error q) be)).
    2:{ intros [x Hx]. unfold conn.zscore in Hx, He.
        by rewrite Hee, He in Hx. }
    by rewrite andb_false_r.
  - rewrite Hz; [done|]. by intros [? _]%bucket_inj.
  - by rewrite Hza.
  - unfold conn.zscore in *. rewrite Hz by (by intros [? _]%bucket_inj).
    by rewrite Hee.
  - rewrite Hsm by keys. done.
  - rewrite Hact. intros [_ Hn]. apply Hn. split; [done|].
    unfold conn.zcard. rewrite Hza, Hae. done.
  - by rewrite Hl2, Hl.
  - by rewrite Hp2.
Qed.

(** Enqueue, claim, fail.  The same task with a body that raises without
    writing to the broker: after the worker's pass the ID is in the error
    sorted set of the queue with the time of the failure and in neither
    the queued nor the active sorted set of the queue, the task record is
    kept, one execution record with the start time, the traceback, the
    failure time and [success] false is appended to the executions of the
    task, and the queue is in neither the queued nor the active status
    set. *)
Theorem enqueue_process_failure func args kwargs queue hard_timeout unique
    urandom now b r env f traceback :
  __module__ func ≠ "__main__" →
  let name := __module__ func +:+ "." +:+ __name__ func in
  let flag := unique_of func unique in
  let id := task_id_of name args kwargs flag urandom in
  let q := queue_of func queue in
  let s :=
    json_dumps false
      (PDict (task_record id name now flag args kwargs hard_timeout)) in
  json_loads s
    = inr (PDict (task_record id name now flag args kwargs hard_timeout)) →
  s ≠ EmptyString →
  conn.zset (bucket Queued q) b = ∅ →
  conn.zset (bucket Active q) b = ∅ →
  import_attribute env name = inr f →
  fate r = ChildRuns env →
  Forall retried (waits r) →
  (∀ b0,
     call env f
       (if truthy args then args else PList [])
       (if truthy kwargs then kwargs else PDict [])
       (py_or hard_timeout
          (py_or (getattr_default (_task_hard_timeout f) PNone)
             (PNum DEFAULT_HARD_TIMEOUT))) b0 = (Raised traceback, b0)) →
  ∃ b1 b2,
    delay func args kwargs queue hard_timeout unique urandom now b = inr b1
    ∧ _process_from_queue q r b1 = inr (Some id, b2)
    ∧ conn.get (_key ["task"; id]) b2 = Some s
    ∧ conn.zset (bucket Queued q) b2 = ∅
    ∧ conn.zset (bucket Active q) b2 = ∅
    ∧ conn.zset (bucket Error q) b2 =
        <[id := now_failed r]> (conn.zset (bucket Error q) b)
    ∧ (q ∉ conn.smembers (_key ["queued"]) b2)
    ∧ (q ∉ conn.smembers (_key ["active"]) b2)
    ∧ conn.lrange (_key ["task"; id; "executions"]) b2 =
        conn.lrange (_key ["task"; id; "executions"]) b
        ++ [json_dumps false (failure_record env traceback)]
    ∧ published b2 = published b ++ [(_key ["activity"], q)].
Proof.
  intros Hm name flag id q s Hloads Hne Hq Ha Himport Hfate Hev Hcall.
  destruct (enqueue_claim_execute func args kwargs queue hard_timeout unique
              urandom now b r env f (Raised traceback) Hm Hloads Hne Hq Ha
              Himport Hfate Hev)
    as (b1 & be & Hd & Hp & Hqe & Hae & Hee & Hsq & _ & Hget & Hpub & Hl).
  { intros b0. rewrite call_of_task_record. apply Hcall. }
  fold name flag in Hp, Hqe, Hae, Hee, Hsq, Hget, Hpub, Hl.
  fold id in Hp, Hqe, Hae, Hee, Hsq, Hget, Hpub, Hl.
  fold q in Hp, Hqe, Hae, Hee, Hsq, Hget, Hpub, Hl.
  destruct (reconcile_failure_effect q id (now_failed r) be)
    as (Hza & Hze & Hz & Hact & Hsm & Hst2 & Hl2 & Hp2).
  exists b1, (reconcile_failure q id (now_failed r) be).
  split; [done|]. split; [done|]. split_and!.
  - unfold conn.get in *. by rewrite Hst2.
  - rewrite Hz; [done|by intros [? _]%bucket_inj..].
  - by rewrite Hza.
  - by rewrite Hze, Hee.
  - rewrite Hsm by keys. done.
  - rewrite Hact. intros [_ Hn]. apply Hn. split; [done|].
    unfold conn.zcard. rewrite Hza, Hae. done.
  - unfold conn.lrange at 1. rewrite Hl2, Hl.
    fold (conn.lrange (_key ["task"; id; "executions"])
            (conn.rpush (_key ["task"; id; "executions"])
               (json_dumps false (failure_record env traceback)) b)).
    autorewrite with broker. by rewrite decide_True.
  - by rewrite Hp2.
Qed.

End end_to_end.

(** ** Instances of the statements above *)

Section examples.
#[local] Existing Instance example_lib.

(** A call that returns, returns the broker read off its result. *)
Lemma broker_after_inr (r : res broker) :
  match r with inr _ => true | inl _ => false end = true →
  r = inr (broker_after r).
Proof. by destruct r. Qed.

Lemma processed_inr (r : res (option string * broker)) (id : string) :
  match r with
  | inr (Some id', _) => String.eqb id' id
  | _ => false
  end = true →
  r = inr (Some id, processed r).
Proof.
  destruct r as [e|[[id'|] b]]; try done. simpl.
  by intros ->%String.eqb_eq.
Qed.

Lemma executed_inr (r : res (bool * broker)) (success : bool) :
  match r with
  | inr (success', _) => Bool.eqb success' success
  | _ => false
  end = true →
  r = inr (success, executed r).
Proof.
  destruct r as [e|[success' b]]; try done. simpl.
  by intros ->%Bool.eqb_prop.
Qed.

Lemma C7_success_iff_exit_code_zero_witness :
  ∃ status b',
    supervise "default" (PDict [("id", PStr task_id_a)])
      [WaitTimer 110; WaitOSError 4; WaitTimer 120] (Signaled 9 false)
      empty_broker = inr (status, b')
    ∧ (status = true ↔ Signaled 9 false = Exited 0)
    ∧ (∀ signum core,
         Signaled 9 false = Signaled signum core → status = false)
    ∧ (∀ child b0,
         run_child child (PDict [("id", PStr task_id_a)]) b0
           = (Signaled 9 false, empty_broker) →
         _execute "default" (PDict [("id", PStr task_id_a)]) child
           [WaitTimer 110; WaitOSError 4; WaitTimer 120] b0
           = inr (status, b')).
Proof.
  apply (C7_success_iff_exit_code_zero "default" _ task_id_a).
  - simpl. lia.
  - repeat constructor.
  - reflexivity.
Defined.

Lemma C5_unique_task_id_witness :
∃ b1' b2' d1 d2,
  delay unique_task PNone
    (PDict [("value", PNum 1)]) None PNone PNone urandom_a 100 empty_broker
    = inr b1'
  ∧ delay unique_task PNone
      (PDict [("value", PNum 1)]) (Some "other") (PNum 5) (PBool true)
      EmptyString 200 empty_broker = inr b2'
  ∧ conn.zscore (bucket Queued "default")
      (sha256_hexdigest (json_dumps true (PDict [
         ("func", PStr "tests.tasks.unique_task");
         ("args", PNone);
         ("kwargs", PDict [("value", PNum 1)])]))) b1' = Some 100
  ∧ conn.zscore (bucket Queued "other")
      (sha256_hexdigest (json_dumps true (PDict [
         ("func", PStr "tests.tasks.unique_task");
         ("args", PNone);
         ("kwargs", PDict [("value", PNum 1)])]))) b2' = Some 200
  ∧ conn.get (_key ["task"; sha256_hexdigest (json_dumps true (PDict [
         ("func", PStr "tests.tasks.unique_task");
         ("args", PNone);
         ("kwargs", PDict [("value", PNum 1)])]))]) b1'
    = Some (json_dumps false (PDict d1))
  ∧ conn.get (_key ["task"; sha256_hexdigest (json_dumps true (PDict [
         ("func", PStr "tests.tasks.unique_task");
         ("args", PNone);
         ("kwargs", PDict [("value", PNum 1)])]))]) b2'
    = Some (json_dumps false (PDict d2))
  ∧ dict_get "id" d1 = Some (PStr (sha256_hexdigest (json_dumps true (PDict [
         ("func", PStr "tests.tasks.unique_task");
         ("args", PNone);
         ("kwargs", PDict [("value", PNum 1)])]))))
  ∧ dict_get "id" d2 = Some (PStr (sha256_hexdigest (json_dumps true (PDict [
         ("func", PStr "tests.tasks.unique_task");
         ("args", PNone);
         ("kwargs", PDict [("value", PNum 1)])])))).
Proof.
apply (C5_unique_task_id unique_task PNone
         (PDict [("value", PNum 1)])
         None PNone PNone urandom_a 100 empty_broker
         (Some "other") (PNum 5) (PBool true) EmptyString 200 empty_broker).
- discriminate.
- reflexivity.
- reflexivity.
Defined.



Lemma C9_orphan_id_left_active_witness :
∃ b',
  _process_from_queue "default" run_a orphan_queued
    = inr (Some "orphan", b')
  ∧ conn.zscore (bucket Active "default") "orphan" b' = Some 101
  ∧ strings b' = strings orphan_queued
  ∧ lists b' = lists orphan_queued.
Proof.
destruct (C9_orphan_id_left_active "default" run_a orphan_queued "orphan")
  as (b' & Hp & _ & Hz & Hs & Hl & _).
- vm_compute. reflexivity.
- vm_compute. reflexivity.
- exists b'. exact (conj Hp (conj Hz (conj Hs Hl))).
Defined.

Lemma C6_success_reconciliation_witness :
∃ b',
  _process_from_queue "default" run_requeueing (enqueued unique_task)
    = inr (Some task_id_unique, b')
  ∧ member task_id_unique (bucket Queued "default") requeued_in_flight
  ∧ conn.zset (bucket Active "default") b' = ∅
  ∧ conn.get (_key ["task"; task_id_unique]) b'
    = conn.get (_key ["task"; task_id_unique]) requeued_in_flight
  ∧ ("default" ∈ conn.smembers (_key ["active"]) b' ↔
     "default" ∈ conn.smembers (_key ["active"]) requeued_in_flight
     ∧ conn.zcard (bucket Active "default") b' ≠ 0%nat).
Proof.
assert (member task_id_unique (bucket Queued "default") requeued_in_flight)
  as Hqueued.
{ vm_compute. eexists. reflexivity. }
destruct (C6_success_reconciliation "default" task_id_unique
            (task_record task_id_unique "tests.tasks.unique_task" 100
               (PBool true) PNone PNone PNone)
            requeued_in_flight)
  as (Hp & Hza & _ & _ & Hkept & _ & _ & Hact & _).
eexists. split; [|split; [exact Hqueued|split; [|split; [|exact Hact]]]].
- apply (Hp run_requeueing (enqueued unique_task)
           (print_json false record_unique)).
  + vm_compute. reflexivity.
  + vm_compute. reflexivity.
  + vm_compute. discriminate.
  + vm_compute. reflexivity.
  + apply executed_inr. vm_compute. reflexivity.
- rewrite Hza. vm_compute. reflexivity.
- apply Hkept; [reflexivity|]. left. exact Hqueued.
Defined.

Lemma C2_unresolved_callable_logged_witness :
∃ b1 b',
  _execute "default" record_missing (fate run_a) (waits run_a)
    (claim "default" 101 (enqueued missing_task)).2 = inr (false, b1)
  ∧ _process_from_queue "default" run_a (enqueued missing_task)
    = inr (Some task_id_a, b')
  ∧ conn.zscore (bucket Error "default") task_id_a b' = Some 103
  ∧ conn.zscore (bucket Active "default") task_id_a b' = None
  ∧ conn.lrange (_key ["task"; task_id_a; "executions"]) b' =
      conn.lrange (_key ["task"; task_id_a; "executions"])
        (enqueued missing_task)
      ++ [json_dumps false (PDict [("success", PBool false)])].
Proof.
apply (C2_unresolved_callable_logged "default" run_a (enqueued missing_task)
         task_id_a (print_json false record_missing)
         (task_record task_id_a "no.such.module.missing_task" 100
            (PBool false) PNone PNone PNone)
         (PStr "no.such.module.missing_task") task_id_a example_env
         ImportError).
- vm_compute. reflexivity.
- vm_compute. reflexivity.
- vm_compute. discriminate.
- vm_compute. reflexivity.
- reflexivity.
- reflexivity.
- reflexivity.
- repeat constructor.
- reflexivity.
- reflexivity.
Defined.

(** C2 as stated fails: the import of the module raises [ImportError], the
  execution fails, and the executions of the task, empty before, hold one
  record afterwards. *)
Lemma C2_record_appended_when_import_fails :
conn.lrange (_key ["task"; task_id_a; "executions"]) (enqueued missing_task)
  = []
∧ _func_from_serialized_name example_env (PStr "no.such.module.missing_task")
  = inl ImportError
∧ conn.lrange (_key ["task"; task_id_a; "executions"])
    (processed (_process_from_queue "default" run_a (enqueued missing_task)))
  = [json_dumps false (PDict [("success", PBool false)])]
∧ conn.zscore (bucket Error "default") task_id_a
    (processed (_process_from_queue "default" run_a (enqueued missing_task)))
  = Some 103.
Proof. split_and!; vm_compute; reflexivity. Qed.

(** C1.  The reconciliation of a failure removes the ID from the active
  sorted set of the queue, inserts it with the time of the failure into
  the error sorted set, removes the queue from the active status set iff
  the active sorted set is then empty, and keeps records and execution
  logs; but it leaves the error status set as it was.  On the run below
  (the task raises), the ID ends in the error sorted set of the default
  queue while the error status set is empty. *)
Theorem C1_failure_reconciliation_misses_error_status_set :
(∀ queue task_id now b,
   let b' := reconcile_failure queue task_id now b in
   conn.zscore (bucket Active queue) task_id b' = None
   ∧ conn.zscore (bucket Error queue) task_id b' = Some now
   ∧ (queue ∈ conn.smembers (_key ["active"]) b' ↔
      queue ∈ conn.smembers (_key ["active"]) b
      ∧ conn.zcard (bucket Active queue) b' ≠ 0%nat)
   ∧ strings b' = strings b
   ∧ lists b' = lists b
   ∧ conn.smembers (_key ["error"]) b' = conn.smembers (_key ["error"]) b)
∧ (∃ b',
     _process_from_queue "default" run_a (enqueued exception_task)
       = inr (Some task_id_a, b')
     ∧ conn.zscore (bucket Error "default") task_id_a b' = Some 103
     ∧ conn.zscore (bucket Active "default") task_id_a b' = None
     ∧ elements (conn.smembers (_key ["active"]) b') = []
     ∧ conn.get (_key ["task"; task_id_a]) b'
       = Some (json_dumps false record_exception)
     ∧ length (conn.lrange (_key ["task"; task_id_a; "executions"]) b')
       = 1%nat
     ∧ elements (conn.smembers (_key ["error"]) b') = []).
Proof.
split; [apply reconcile_failure_error_status_set|].
exists (processed
          (_process_from_queue "default" run_a (enqueued exception_task))).
split; [apply processed_inr|split_and!]; vm_compute; reflexivity.
Qed.

Lemma C4_unique_requeue_witness :
  ∃ b' d,
    delay unique_task PNone PNone None PNone PNone urandom_a 200
      unique_claimed = inr b'
    ∧ (∀ q', conn.zset (bucket Active q') b'
             = conn.zset (bucket Active q') unique_claimed)
    ∧ (∀ q', conn.zset (bucket Error q') b'
             = conn.zset (bucket Error q') unique_claimed)
    ∧ conn.get (_key ["task"; task_id_unique]) unique_claimed
      = Some (json_dumps false (PDict d))
    ∧ conn.get (_key ["task"; task_id_unique]) b'
      = Some (json_dumps false
                (PDict (dict_set "time_last_queued" (PNum 200) d))).
Proof.
  destruct (C4_unique_requeue unique_task PNone PNone PNone
              None PNone urandom_a 100 empty_broker (enqueued unique_task)
              None PNone urandom_a 200 unique_claimed)
    as (b' & d & Hd & Ha & He & _ & _ & _ & Hold & Hnew & _).
  - vm_compute. reflexivity.
  - vm_compute. reflexivity.
  - apply broker_after_inr. vm_compute. reflexivity.
  - vm_compute. reflexivity.
  - exists b', d. exact (conj Hd (conj Ha (conj He (conj Hold Hnew)))).
Defined.

(** C4 as stated fails: the unique task is in the active sorted set of its
    queue and not in the queued one; enqueued again, its ID is a member of
    the queued sorted set as well. *)
Lemma C4_requeue_adds_to_queued :
  conn.zscore (bucket Active "default") task_id_unique unique_claimed
    = Some 101
  ∧ conn.zscore (bucket Queued "default") task_id_unique unique_claimed = None
  ∧ conn.zscore (bucket Queued "default") task_id_unique
      (broker_after
         (delay unique_task PNone PNone None PNone PNone urandom_a 200
            unique_claimed)) = Some 200
  ∧ conn.zscore (bucket Active "default") task_id_unique
      (broker_after
         (delay unique_task PNone PNone None PNone PNone urandom_a 200
            unique_claimed)) = Some 101.
Proof. split_and!; vm_compute; reflexivity. Qed.

Lemma empty_broker_no_member id k : ¬ member id k empty_broker.
Proof.
  intros [s Hs]. unfold conn.zscore, conn.zset in Hs. simpl in Hs.
  rewrite lookup_empty in Hs. simpl in Hs. by rewrite lookup_empty in Hs.
Qed.

Lemma C3_at_most_one_bucket_witness :
  at_most_one_bucket unique_claimed
  ∧ ∀ o b',
      exclusive o unique_claimed → apply_op o unique_claimed = inr b' →
      at_most_one_bucket b'.
Proof.
  apply (C3_at_most_one_bucket unique_claimed).
  apply (reachable_step _ (enqueued unique_task) (OpClaim "default" 101)).
  - apply (reachable_step _ empty_broker
             (OpDelay unique_task PNone PNone None PNone PNone urandom_a 100)).
    + apply reachable_empty.
    + simpl. intros serialized_name k _ Hk.
      destruct (empty_broker_no_member _ _ Hk).
    + apply broker_after_inr. vm_compute. reflexivity.
  - simpl. exact I.
  - exact eq_refl.
Defined.

(** C3 as stated fails: two enqueues of the unique task, on the default
    queue and on another one, are an interleaving of the operations, and
    leave its ID in the queued sorted sets of both queues. *)
Lemma C3_unique_task_in_two_buckets :
  reachable unique_on_two_queues
  ∧ conn.zscore (bucket Queued "default") task_id_unique unique_on_two_queues
    = Some 100
  ∧ conn.zscore (bucket Queued "other") task_id_unique unique_on_two_queues
    = Some 200
  ∧ ¬ at_most_one_bucket unique_on_two_queues.
Proof.
  assert (conn.zscore (bucket Queued "default") task_id_unique
            unique_on_two_queues = Some 100) as Hd
    by (vm_compute; reflexivity).
  assert (conn.zscore (bucket Queued "other") task_id_unique
            unique_on_two_queues = Some 200) as Ho
    by (vm_compute; reflexivity).
  split_and!; [|exact Hd|exact Ho|].
  - apply (reachable_step _ (enqueued unique_task)
             (OpDelay unique_task PNone PNone (Some "other") PNone PNone
                urandom_a 200)).
    + apply (reachable_step _ empty_broker
               (OpDelay unique_task PNone PNone None PNone PNone urandom_a
                  100)).
      * apply reachable_empty.
      * exact I.
      * apply broker_after_inr. vm_compute. reflexivity.
    + exact I.
    + apply broker_after_inr. vm_compute. reflexivity.
  - intros Hone.
    destruct (Hone task_id_unique Queued "default" Queued "other")
      as [_ Hq].
    + exists 100. exact Hd.
    + exists 200. exact Ho.
    + discriminate Hq.
Qed.

Lemma C8_expired_tasks_requeued_witness :
  (conn.zscore (bucket Active "default") "stale"
     (_worker_queue_expired_tasks 100 stale_active) = None
   ∧ conn.zscore (bucket Queued "default") "stale"
       (_worker_queue_expired_tasks 100 stale_active) = Some 100)
  ∧ (conn.zscore (bucket Active "default") "fresh"
       (_worker_queue_expired_tasks 100 stale_active) = Some 95
     ∧ conn.zscore (bucket Queued "default") "fresh"
         (_worker_queue_expired_tasks 100 stale_active) = None)
  ∧ "default" ∈ conn.smembers (_key ["queued"])
      (_worker_queue_expired_tasks 100 stale_active)
  ∧ published (_worker_queue_expired_tasks 100 stale_active)
    = [(_key ["activity"], "default")].
Proof.
  destruct (C8_expired_tasks_requeued 100 stale_active)
    as (Hqueue & (messages & Hpub & _) & _).
  destruct (Hqueue "default")
    as (_ & _ & _ & Hmoved & Hkept & Hsets & _).
  { apply elem_of_elements. vm_compute. left. }
  destruct (Hmoved "stale") as [Hstale_a Hstale_q].
  { vm_compute. left. }
  destruct (Hkept "fresh") as [Hfresh_a Hfresh_q].
  { vm_compute. by intros [=]%list_elem_of_singleton. }
  destruct Hsets as [Hqueued _].
  { vm_compute. discriminate. }
  split_and!.
  - exact Hstale_a.
  - exact Hstale_q.
  - rewrite Hfresh_a. vm_compute. reflexivity.
  - rewrite Hfresh_q. vm_compute. reflexivity.
  - exact Hqueued.
  - vm_compute. reflexivity.
Defined.

(** Why the reconciliation of a failure needs its condition: a task enqueued
    once, claimed at time 101 and reclaimed at time 200 is back in the
    queued sorted set; the failure the first worker then reconciles puts its
    ID into the error sorted set as well. *)
Lemma failure_after_reclaim_in_two_buckets :
  conn.zscore (bucket Queued "default") task_id_a
    (reconcile_failure "default" task_id_a 201
       (_worker_queue_expired_tasks 200
          (claim "default" 101 (enqueued exception_task)).2)) = Some 200
  ∧ conn.zscore (bucket Error "default") task_id_a
      (reconcile_failure "default" task_id_a 201
         (_worker_queue_expired_tasks 200
            (claim "default" 101 (enqueued exception_task)).2)) = Some 201.
Proof. split; vm_compute; reflexivity. Qed.

End examples.

(** ** Instances of the further properties *)

Section more_examples.
#[local] Existing Instance example_lib.

Lemma serialized_name_resolves_witness :
  ∃ name,
    _serialize_func_name simple_task = inr name
    ∧ _func_from_serialized_name example_env (PStr name) =
      match import_module example_env (__module__ simple_task) with
      | inl e => inl e
      | inr module =>
          match module (__name__ simple_task) with
          | Some f => inr f
          | None => inl AttributeError
          end
      end.
Proof.
  destruct (serialized_name_resolves simple_task example_env) as [_ Hres].
  - simpl. repeat (apply Forall_cons; split; [vm_compute; discriminate|]).
    apply Forall_nil_2.
  - apply Hres. discriminate.
Defined.

Lemma gen_id_hex_witness :
  String.length (_gen_id urandom_a) = 64%nat
  ∧ Forall is_hex (chars (_gen_id urandom_a))
  ∧ ∀ urandom',
      _gen_id urandom_a = _gen_id urandom' ↔
      read 32 urandom_a = read 32 urandom'.
Proof. apply (gen_id_hex urandom_a). simpl. lia. Defined.

Lemma delay_decorated_witness :
  ∃ b',
    delay (task (Some "other") PNone PNone task_on_other_queue) PNone PNone
      None PNone PNone urandom_a 100 empty_broker = inr b'
    ∧ conn.zscore (bucket Queued "other") (_gen_id urandom_a) b' = Some 100
    ∧ "other" ∈ conn.smembers (_key ["queued"]) b'
    ∧ published b' = published empty_broker ++ [(_key ["activity"], "other")].
Proof.
  destruct (delay_decorated task_on_other_queue (Some "other") PNone PNone
              PNone PNone None PNone PNone urandom_a 100 empty_broker)
    as (b' & Hd & Hz & Hq & Hp & _).
  - discriminate.
  - exists b'. exact (conj Hd (conj Hz (conj Hq Hp))).
Defined.

Lemma heartbeat_rescoring_witness :
  ∃ status b',
    supervise "default" record_simple
      [WaitTimer 111; WaitOSError 4; WaitTimer 121] (Exited 0)
      (claim "default" 101 (enqueued simple_task)).2 = inr (status, b')
    ∧ conn.zscore (bucket Active "default") task_id_a b' = Some 121.
Proof.
  destruct (heartbeat_rescoring "default" record_simple task_id_a
              [WaitTimer 111; WaitOSError 4; WaitTimer 121] (Exited 0)
              (claim "default" 101 (enqueued simple_task)).2)
    as (status & b' & Hs & Hz & _).
  - repeat constructor.
  - reflexivity.
  - exists status, b'. exact (conj Hs Hz).
Defined.

Lemma waitpid_error_propagates_witness :
  supervise "default" record_simple
    ([WaitTimer 111] ++ WaitOSError 10 :: [WaitTimer 121]) (Exited 0)
    empty_broker = inl (OSError 10)
  ∧ ∀ child b0,
      run_child child record_simple b0 = (Exited 0, empty_broker) →
      _execute "default" record_simple child
        ([WaitTimer 111] ++ WaitOSError 10 :: [WaitTimer 121]) b0
      = inl (OSError 10).
Proof.
  apply (waitpid_error_propagates "default" record_simple task_id_a
           [WaitTimer 111] 10 [WaitTimer 121] (Exited 0) empty_broker).
  - repeat constructor.
  - discriminate.
  - reflexivity.
Defined.

Lemma forked_inr (p : res bool * broker) (success : bool) :
  match p.1 with
  | inr success' => Bool.eqb success' success
  | inl _ => false
  end = true →
  p = (inr success, p.2).
Proof.
  destruct p as [[e|success'] b]; try done. simpl.
  by intros ->%Bool.eqb_prop.
Qed.

Lemma executions_logged_on_failure_only_witness :
  (∃ b0,
     ((true = false ∧ b0 = unique_claimed)
      ∨ ∃ func args kwargs hard_timeout outcome,
          call example_env func args kwargs hard_timeout unique_claimed
            = (outcome, b0)
          ∧ true = match outcome with
                   | Returned => true
                   | Raised _ => false
                   end)
     ∧ (_execute_forked example_env record_unique unique_claimed).2 = b0)
  ∧ conn.lrange "unique_task"
      (_execute_forked example_env record_unique unique_claimed).2
    = ["None"].
Proof.
  split.
  - destruct (executions_logged_on_failure_only example_env record_unique
                unique_claimed true
                (_execute_forked example_env record_unique unique_claimed).2)
      as [Hgeneral _].
    + apply forked_inr. vm_compute. reflexivity.
    + exact Hgeneral.
  - vm_compute. reflexivity.
Defined.


Lemma stop_request_ends_pass_witness :
  visit_queues ([] ++ ("default", run_a, true) :: [("other", run_a, false)])
    {["default"; "other"]} (enqueued simple_task)
  = visit_queues ([] ++ [("default", run_a, true)])
      {["default"; "other"]} (enqueued simple_task).
Proof.
  apply (stop_request_ends_pass [] "default" run_a [("other", run_a, false)]
           false 200 {["default"; "other"]} (enqueued simple_task)).
  apply Forall_nil_2.
Defined.

Lemma status_sets_index_sorted_sets_witness :
  indexed Queued (enqueued simple_task)
  ∧ indexed Active (enqueued simple_task).
Proof.
  apply (status_sets_index_sorted_sets (enqueued simple_task)).
  apply (reachable_step _ empty_broker
           (OpDelay simple_task PNone PNone None PNone PNone urandom_a 100)).
  - apply reachable_empty.
  - exact I.
  - apply broker_after_inr. vm_compute. reflexivity.
Defined.

Lemma enqueue_process_success_witness :
  ∃ b1 b2,
    delay simple_task PNone PNone None PNone PNone urandom_a 100 empty_broker
      = inr b1
    ∧ _process_from_queue "default" run_a b1 = inr (Some task_id_a, b2)
    ∧ conn.get (_key ["task"; task_id_a]) b2 = None
    ∧ conn.zset (bucket Queued "default") b2 = ∅
    ∧ conn.zset (bucket Active "default") b2 = ∅.
Proof.
  destruct (enqueue_process_success simple_task PNone PNone None PNone PNone
              urandom_a 100 empty_broker run_a example_env simple_task)
    as (b1 & b2 & Hd & Hp & Hg & Hq & Ha & _).
  - discriminate.
  - vm_compute. reflexivity.
  - vm_compute. discriminate.
  - vm_compute. reflexivity.
  - vm_compute. reflexivity.
  - vm_compute. reflexivity.
  - vm_compute. reflexivity.
  - reflexivity.
  - repeat constructor.
  - intros b0. reflexivity.
  - exists b1, b2. exact (conj Hd (conj Hp (conj Hg (conj Hq Ha)))).
Defined.

Lemma enqueue_process_failure_witness :
  ∃ b1 b2,
    delay exception_task PNone PNone None PNone PNone urandom_a 100
      empty_broker = inr b1
    ∧ _process_from_queue "default" run_a b1 = inr (Some task_id_a, b2)
    ∧ conn.zset (bucket Error "default") b2 =
        <[task_id_a := 103]> (conn.zset (bucket Error "default") empty_broker)
    ∧ conn.lrange (_key ["task"; task_id_a; "executions"]) b2 =
        conn.lrange (_key ["task"; task_id_a; "executions"]) empty_broker
        ++ [json_dumps false
              (failure_record example_env "StandardError: this failed")].
Proof.
  destruct (enqueue_process_failure exception_task PNone PNone None PNone
              PNone urandom_a 100 empty_broker run_a example_env
              exception_task "StandardError: this failed")
    as (b1 & b2 & Hd & Hp & _ & _ & _ & He & _ & _ & Hl & _).
  - discriminate.
  - vm_compute. reflexivity.
  - vm_compute. discriminate.
  - vm_compute. reflexivity.
  - vm_compute. reflexivity.
  - vm_compute. reflexivity.
  - reflexivity.
  - repeat constructor.
  - intros b0. reflexivity.
  - exists b1, b2. exact (conj Hd (conj Hp (conj He Hl))).
Defined.

Lemma worker_run_inr (r : res (gset string * broker)) :
  (match r with inr _ => true | inl _ => false end) = true →
  ∃ queue_set b, r = inr (queue_set, b).
Proof. destruct r as [e|[queue_set b]]; [discriminate|]. by exists queue_set, b. Qed.

Lemma worker_run_queue_set_witness :
  ∃ queue_set' b',
    _worker_run [("default", run_a, false)] false 200
      {["default"; "other"]} (enqueued simple_task) = inr (queue_set', b')
    ∧ queue_set' ⊆ {["default"; "other"]}
    ∧ "other" ∈ queue_set'.
Proof.
  destruct (worker_run_inr
              (_worker_run [("default", run_a, false)] false 200
                 {["default"; "other"]} (enqueued simple_task)))
    as (queue_set' & b' & Hrun).
  { vm_compute. reflexivity. }
  destruct (worker_run_queue_set _ _ _ _ _ _ _ Hrun) as [Hsub Hkeep].
  exists queue_set', b'. split; [exact Hrun|]. split; [exact Hsub|].
  apply Hkeep.
  - apply elem_of_union. right. by apply elem_of_singleton.
  - simpl. by intros [=]%list_elem_of_singleton.
Defined.

Lemma reclaim_without_expired_tasks_witness :
  _worker_queue_expired_tasks 60 stale_active = stale_active.
Proof.
  apply (reclaim_without_expired_tasks 60 stale_active).
  intros queue id score Hqueue Hscore.
  apply elem_of_elements in Hqueue. vm_compute in Hqueue.
  apply list_elem_of_singleton in Hqueue. subst queue.
  unfold conn.zscore in Hscore.
  apply elem_of_map_to_list in Hscore. vm_compute in Hscore.
  apply elem_of_cons in Hscore as [[= _ ->]|Hscore]; [reflexivity|].
  apply list_elem_of_singleton in Hscore as [= _ ->]. reflexivity.
Defined.

Lemma key_layout_disjoint_witness :
  _key [status_name Active] ≠ bucket Queued "default"
  ∧ _key [status_name Active] ≠ _key ["task"; task_id_a]
  ∧ bucket Queued "default" ≠ _key ["task"; task_id_a].
Proof.
  destruct (key_layout_disjoint Queued Active "default" task_id_a task_id_a)
    as (H1 & H2 & _ & H4 & _).
  exact (conj H1 (conj H2 H4)).
Defined.

Lemma empty_queue_dropped_witness :
  _process_from_queue "other" run_a (enqueued simple_task)
  = inr (None, enqueued simple_task).
Proof.
  destruct (empty_queue_dropped "other" run_a (enqueued simple_task))
    as [Hempty _].
  apply Hempty. vm_compute. reflexivity.
Defined.

Lemma update_queue_set_returns_witness :
  is_Some (_worker_update_queue_set inbox_a ∅)
  ∧ ∀ queue_set',
      _worker_update_queue_set inbox_a ∅ = Some queue_set' →
      queue_set' ≠ ∅.
Proof.
  destruct (update_queue_set_returns inbox_a ∅) as (Hreturned & _ & Hsome).
  split.
  - apply Hsome. right. apply Exists_cons_tl, Exists_cons_hd. reflexivity.
  - intros queue_set' Heq. apply (Hreturned queue_set' Heq).
Defined.

End more_examples.
